(** * PolarSSL OID database (library/oid.c): registry lookups and the
      dotted-decimal codec, as a shallow embedding.

    The embedding follows library/oid.c function by function.  C objects are
    modelled as the code uses them:

    - an [asn1_buf] is the C struct (tag, len, p), [p] being NULL or the bytes
      it points to;
    - a lookup table is the list of its rows, the sentinel row included;
      walking off the list, or reading an OID buffer beyond its bytes, is an
      access outside an object and is reported as [Fault];
    - the output buffer of [oid_get_numeric_string] is write-only: the model
      records every byte store, in program order, with its offset from [buf],
      so that a store outside [0, size) shows up as such;
    - [unsigned int] is [sizeof_value] bytes wide (8-bit bytes) and wraps;
      [int] has the same width;
    - [snprintf] is the one of ISO C99 (the [compat_snprintf] wrapper, built
      under _MSC_VER only, is left out), and every POLARSSL_xxx_C feature
      that guards a table is taken as enabled.

    The file has four parts: the embedding of the code; the vocabulary of
    the statements, with the rendering as the specification words it;
    sample inputs; then the lemmas, and the theorems on the registry and on
    the codec. *)

From Stdlib Require Import ZArith List Bool Lia.
From Stdlib Require Import Strings.Ascii Strings.Byte.
From Stdlib Require Strings.String.
Import ListNotations String.StringSyntax.
Delimit Scope string_scope with string.

Local Open Scope Z_scope.

(** ** Bytes, characters and C strings *)

Definition byte_val (b : byte) : Z := Z.of_N (Byte.to_N b).

Definition NUL : ascii := Ascii.zero.

(** The text of a string literal, as the list of its characters. *)
Definition chars (s : String.string) : list ascii :=
  String.list_ascii_of_string s.
Arguments chars s%_string_scope.

(** A [const char *] holding raw OID bytes is a string literal: the bytes as
    written, followed by the implicit terminator.  [c_str] is the part that C
    string functions see, up to the first zero byte. *)
Fixpoint c_str (s : list byte) : list byte :=
  match s with
  | [] => []
  | b :: rest => if Byte.eqb b x00 then [] else b :: c_str rest
  end.

Definition strlen (s : list byte) : nat := length (c_str s).

(** ** Results of code that may read outside its objects *)

Inductive access (A : Type) : Type :=
| Ok (a : A)
| Fault.                       (* access outside an object: undefined *)
Arguments Ok {A} a.
Arguments Fault {A}.

Fixpoint bytes_eqb (a b : list byte) : bool :=
  match a, b with
  | [], [] => true
  | x :: a', y :: b' => Byte.eqb x y && bytes_eqb a' b'
  | _, _ => false
  end.

(** [memcmp (a, b, n) == 0]: both objects must hold [n] bytes. *)
Definition memcmp_eq (a b : list byte) (n : nat) : access bool :=
  if (n <=? length a)%nat && (n <=? length b)%nat
  then Ok (bytes_eqb (firstn n a) (firstn n b))
  else Fault.

(** ** asn1_buf (polarssl/asn1.h) *)

Record asn1_buf : Type := mk_asn1_buf {
  tag : Z;                      (* int tag *)
  len : nat;                    (* size_t len *)
  p   : option (list byte)      (* unsigned char *p; None is NULL *)
}.

(** The buffer an ASN.1 parser hands over: [p] points to exactly [len]
    bytes. *)
Definition oid_of_bytes (bs : list byte) : asn1_buf :=
  {| tag := 6; len := length bs; p := Some bs |}.

(** [oid->p[i]] *)
Definition byte_at (oid : asn1_buf) (i : nat) : option byte :=
  match p oid with
  | Some bs => nth_error bs i
  | None => None
  end.

(** ** printf's %d *)

Definition digit_char (d : Z) : ascii := ascii_of_nat (48 + Z.to_nat d).

(** Decimal digits of a non-negative number, least significant first pushed
    onto [acc]; [fuel] bounds the number of digits. *)
Fixpoint utoa (fuel : nat) (z : Z) (acc : list ascii) : list ascii :=
  match fuel with
  | O => acc
  | S f =>
      let acc' := digit_char (z mod 10) :: acc in
      if z <? 10 then acc' else utoa f (z / 10) acc'
  end.

(** A number below [2^k] has at most [k] decimal digits, and at least one. *)
Definition digits_fuel (z : Z) : nat := S (Z.to_nat (Z.log2 z)).

Definition fmt_d (z : Z) : list ascii :=
  if z <? 0 then "-"%char :: utoa (digits_fuel (- z)) (- z) []
  else utoa (digits_fuel z) z [].

(** ** The output buffer: a log of byte stores *)

(** One store [buf[off] = c]; [off] is the offset from [buf], negative when
    the address lies before the buffer. *)
Definition store : Type := (Z * ascii)%type.

(** Stores of the characters [cs] at consecutive offsets from [off]. *)
Fixpoint put (off : Z) (cs : list ascii) : list store :=
  match cs with
  | [] => []
  | c :: rest => (off, c) :: put (off + 1) rest
  end.

(** The byte last stored at [off], if any store went there. *)
Definition load (log : list store) (off : Z) : option ascii :=
  fold_left (fun acc (st : store) => if fst st =? off then Some (snd st) else acc)
            log None.

Definition in_bounds (size : Z) (st : store) : Prop := 0 <= fst st < size.

(** The caller's array after the stores of [log]: stores inside the array
    update it, the others land elsewhere. *)
Definition store_at (buf : list ascii) (st : store) : list ascii :=
  if (0 <=? fst st) && (fst st <? Z.of_nat (length buf))
  then firstn (Z.to_nat (fst st)) buf ++ snd st :: skipn (S (Z.to_nat (fst st))) buf
  else buf.

Definition buffer_after (log : list store) (buf : list ascii) : list ascii :=
  fold_left store_at log buf.

(** ** The codec *)

Definition POLARSSL_ERR_DEBUG_BUF_TOO_SMALL : Z := -2.

(** Local state of [oid_get_numeric_string] that SAFE_SNPRINTF updates: the
    write pointer [p] (as an offset from [buf]), the remaining size [n], and
    the stores made so far. *)
Record cursor : Type := mk_cursor {
  cur_p : Z;
  cur_n : Z;
  cur_mem : list store
}.

Inductive flow : Type :=
| Next (c : cursor)                     (* fall through *)
| Return (r : Z) (mem : list store)     (* return( r ) *)
| Crash.                                (* read outside the OID buffer *)

Definition bind (f : flow) (k : cursor -> flow) : flow :=
  match f with
  | Next c => k c
  | Return r mem => Return r mem
  | Crash => Crash
  end.

Notation "c <- f ;; k" := (bind f (fun c => k))
  (at level 61, f at next level, right associativity).

(** C99 [snprintf (p, n, ...)] for formatted text [s]: at most [n - 1]
    characters are stored, then a terminator, nothing at all when [n] is 0;
    the value is the length of [s]. *)
Definition snprintf (c : cursor) (s : list ascii) : Z * cursor :=
  let written := firstn (Z.to_nat (cur_n c - 1)) s in
  let stores :=
    if cur_n c <=? 0 then []
    else put (cur_p c) written
         ++ [(cur_p c + Z.of_nat (length written), NUL)] in
  (Z.of_nat (length s),
   {| cur_p := cur_p c; cur_n := cur_n c; cur_mem := cur_mem c ++ stores |}).

(** The macro SAFE_SNPRINTF, applied to [ret] and the local state.  [n] is a
    size_t: with [n = 0], [p[n - 1]] addresses the byte before [p]. *)
Definition SAFE_SNPRINTF (ret : Z) (c : cursor) : flow :=
  if ret =? -1 then Return (-1) (cur_mem c)
  else if ret >? cur_n c
  then Return POLARSSL_ERR_DEBUG_BUF_TOO_SMALL
              (cur_mem c ++ [(cur_p c + (cur_n c - 1), NUL)])
  else Next {| cur_p := cur_p c + ret; cur_n := cur_n c - ret;
               cur_mem := cur_mem c |}.

Section Codec.

(** [sizeof(value)], the size in bytes of [unsigned int]. *)
Variable sizeof_value : nat.

Definition int_bits : Z := 8 * Z.of_nat sizeof_value.

(** Arithmetic on [unsigned int] is modulo [2 ^ int_bits]. *)
Definition to_uint (z : Z) : Z := z mod 2 ^ int_bits.

(** Conversion to [int]: two's complement. *)
Definition to_int (z : Z) : Z :=
  (z + 2 ^ (int_bits - 1)) mod 2 ^ int_bits - 2 ^ (int_bits - 1).

(** The body of the for loop, [count] iterations from index [i]. *)
Fixpoint arcs_loop (oid : asn1_buf) (count i : nat) (value : Z) (c : cursor)
  : flow :=
  match count with
  | O => Next c
  | S count' =>
      match byte_at oid i with
      | None => Crash
      | Some b =>
          let value := to_uint (Z.shiftl value 7) in
          let value := to_uint (value + Z.land (byte_val b) 0x7F) in
          if Z.land (byte_val b) 0x80 =? 0
          then (* Last byte *)
            let (ret, c1) := snprintf c ("."%char :: fmt_d (to_int value)) in
            c2 <- SAFE_SNPRINTF ret c1 ;;
            arcs_loop oid count' (S i) 0 c2
          else arcs_loop oid count' (S i) value c
      end
  end.

Inductive outcome : Type :=
| Returned (r : Z) (mem : list store)
| Crashed.

Definition first_arcs (oid : asn1_buf) (c : cursor) : flow :=
  if (0 <? len oid)%nat
  then match byte_at oid 0 with
       | None => Crash
       | Some b =>
           let (ret, c1) :=
             snprintf c (fmt_d (byte_val b / 40) ++ "."%char
                         :: fmt_d (byte_val b mod 40)) in
           SAFE_SNPRINTF ret c1
       end
  else Next c.

(** [int oid_get_numeric_string( char *buf, size_t size, const asn1_buf *oid )] *)
Definition oid_get_numeric_string (size : Z) (oid : asn1_buf) : outcome :=
  let c0 := {| cur_p := 0; cur_n := size; cur_mem := [] |} in
  match
    (c1 <- first_arcs oid c0 ;;
     (* Prevent overflow in value. *)
     if (sizeof_value <? len oid)%nat
     then Return POLARSSL_ERR_DEBUG_BUF_TOO_SMALL (cur_mem c1)
     else
       c2 <- arcs_loop oid (len oid - 1) 1 0 c1 ;;
       Return (to_int (size - cur_n c2)) (cur_mem c2))
  with
  | Next c => Crashed                    (* not reached: the body returns *)
  | Return r mem => Returned r mem
  | Crash => Crashed
  end.

End Codec.

(** ** The registry *)

(** *** What oid.c takes from headers that are not part of the sources *)

(** Modelled from the spec: [md_type_t] (polarssl/md.h is absent), an opaque
    digest tag.  The enumerators are the ones oid.c names; the value 0, which
    the sentinel rows write literally, is POLARSSL_MD_NONE. *)
Inductive md_type_t : Type :=
| POLARSSL_MD_NONE
| POLARSSL_MD_MD2
| POLARSSL_MD_MD4
| POLARSSL_MD_MD5
| POLARSSL_MD_SHA1
| POLARSSL_MD_SHA224
| POLARSSL_MD_SHA256
| POLARSSL_MD_SHA384
| POLARSSL_MD_SHA512.

(** Modelled from the spec: [pk_type_t] (its header is absent), an opaque
    public-key tag; 0 is POLARSSL_PK_NONE. *)
Inductive pk_type_t : Type :=
| POLARSSL_PK_NONE
| POLARSSL_PK_RSA.

(** Modelled from the spec: [cipher_type_t] (polarssl/cipher.h is absent), an
    opaque cipher tag; 0 is POLARSSL_CIPHER_NONE. *)
Inductive cipher_type_t : Type :=
| POLARSSL_CIPHER_NONE
| POLARSSL_CIPHER_DES_CBC
| POLARSSL_CIPHER_DES_EDE_CBC
| POLARSSL_CIPHER_DES_EDE3_CBC.

Scheme Equality for md_type_t.
Scheme Equality for pk_type_t.
Scheme Equality for cipher_type_t.

(** The macros of polarssl/oid.h that oid.c uses.  The header is absent, so
    their values are parameters: each OID_xxx is a string literal holding the
    raw bytes of the OID. *)
Class oid_h : Type := {
  POLARSSL_ERR_OID_NOT_FOUND : Z;
  OID_AT_CN : list byte;
  OID_AT_COUNTRY : list byte;
  OID_AT_LOCALITY : list byte;
  OID_AT_STATE : list byte;
  OID_AT_ORGANIZATION : list byte;
  OID_AT_ORG_UNIT : list byte;
  OID_PKCS9_EMAIL : list byte;
  OID_BASIC_CONSTRAINTS : list byte;
  OID_KEY_USAGE : list byte;
  OID_EXTENDED_KEY_USAGE : list byte;
  OID_SUBJECT_ALT_NAME : list byte;
  OID_NS_CERT_TYPE : list byte;
  OID_SERVER_AUTH : list byte;
  OID_CLIENT_AUTH : list byte;
  OID_CODE_SIGNING : list byte;
  OID_EMAIL_PROTECTION : list byte;
  OID_TIME_STAMPING : list byte;
  OID_OCSP_SIGNING : list byte;
  OID_PKCS1_MD2 : list byte;
  OID_PKCS1_MD4 : list byte;
  OID_PKCS1_MD5 : list byte;
  OID_PKCS1_SHA1 : list byte;
  OID_PKCS1_SHA224 : list byte;
  OID_PKCS1_SHA256 : list byte;
  OID_PKCS1_SHA384 : list byte;
  OID_PKCS1_SHA512 : list byte;
  OID_RSA_SHA_OBS : list byte;
  OID_PKCS1_RSA : list byte;
  OID_DES_CBC : list byte;
  OID_DES_EDE3_CBC : list byte;
  OID_DIGEST_ALG_MD2 : list byte;
  OID_DIGEST_ALG_MD4 : list byte;
  OID_DIGEST_ALG_MD5 : list byte;
  OID_DIGEST_ALG_SHA1 : list byte;
  OID_DIGEST_ALG_SHA224 : list byte;
  OID_DIGEST_ALG_SHA256 : list byte;
  OID_DIGEST_ALG_SHA384 : list byte;
  OID_DIGEST_ALG_SHA512 : list byte;
  OID_PKCS12_PBE_SHA1_DES3_EDE_CBC : list byte;
  OID_PKCS12_PBE_SHA1_DES2_EDE_CBC : list byte
}.

(** The extension-type codes of polarssl/x509.h, absent as well. *)
Class x509_h : Type := {
  EXT_BASIC_CONSTRAINTS : Z;
  EXT_KEY_USAGE : Z;
  EXT_EXTENDED_KEY_USAGE : Z;
  EXT_SUBJECT_ALT_NAME : Z;
  EXT_NS_CERT_TYPE : Z
}.

(** *** Descriptors and rows

    Rocq wants record fields to have distinct names: where C reuses
    [descriptor], [md_alg], [pk_alg] and [cipher_alg] from one struct to the
    next, the fields of the two-tag rows carry a prefix ([sig_md_alg],
    [pbe_cipher_alg], ...). *)

(** [oid_descriptor_t]: three [const char *], NULL in a sentinel row. *)
Record oid_descriptor_t : Type := mk_descriptor {
  asn1 : option (list byte);
  name : option String.string;
  description : option String.string
}.

Definition desc (raw : list byte) (nm ds : String.string) : oid_descriptor_t :=
  {| asn1 := Some raw; name := Some nm; description := Some ds |}.
Arguments desc raw (nm ds)%_string_scope.

Definition null_descriptor : oid_descriptor_t :=
  {| asn1 := None; name := None; description := None |}.

(** Every row type begins with an [oid_descriptor_t]; the generic matcher
    reads a row through that prefix (the cast of [p] in the C code). *)
Class OidEntry (E : Type) : Type := descriptor_of : E -> oid_descriptor_t.

#[export] Instance descriptor_entry : OidEntry oid_descriptor_t := fun d => d.

(** A [const T *] into a table: NULL, or the row it points to with its
    index. *)
Definition row_ptr (E : Type) : Type := option (nat * E).

(** *** Core generic function *)

(** The while loop of [oid_descriptor_from_buf], [cur] at row [idx]; [rows]
    are the rows from [cur] on.  The C function steps a byte pointer by
    [struct_size], the size of one row: on the list of rows that stride is
    the tail, so the argument has no counterpart here. *)
Fixpoint descriptor_scan {E : Type} `{OidEntry E}
    (rows : list E) (idx : nat) (oid : list byte) (len : nat)
  : access (row_ptr E) :=
  match rows with
  | [] => Fault
  | cur :: rest =>
      match asn1 (descriptor_of cur) with
      | None => Ok None
      | Some raw =>
          if (strlen raw =? len)%nat
          then match memcmp_eq raw oid len with
               | Fault => Fault
               | Ok true => Ok (Some (idx, cur))
               | Ok false => descriptor_scan rest (S idx) oid len
               end
          else descriptor_scan rest (S idx) oid len
      end
  end.

Definition oid_descriptor_from_buf {E : Type} `{OidEntry E}
    (struct_set : option (list E)) (oid : option (list byte)) (len : nat)
  : access (row_ptr E) :=
  match struct_set, oid with
  | Some rows, Some bytes => descriptor_scan rows 0 bytes len
  | _, _ => Ok None
  end.

Section Registry.

Context {oid_macros : oid_h} {x509_macros : x509_h}.

(** *** The function-generating macros *)

(** [oid_NAME_from_asn1( oid )] *)
Definition FN_OID_TYPED_FROM_ASN1 {E : Type} `{OidEntry E}
    (LIST : list E) (oid : asn1_buf) : access (row_ptr E) :=
  oid_descriptor_from_buf (Some LIST) (p oid) (len oid).

(** [int FN_NAME( const asn1_buf *oid, ATTR1_TYPE * ATTR1 )].  The last
    argument is what [*ATTR1] holds before the call; the result pairs the
    returned int with what it holds after. *)
Definition FN_OID_GET_ATTR1 {E A : Type}
    (from_asn1 : asn1_buf -> access (row_ptr E)) (ATTR1 : E -> A)
    (oid : asn1_buf) (out1 : A) : access (Z * A) :=
  match from_asn1 oid with
  | Fault => Fault
  | Ok None => Ok (POLARSSL_ERR_OID_NOT_FOUND, out1)
  | Ok (Some (_, data)) => Ok (0, ATTR1 data)
  end.

(** The same for a field of the descriptor, [data->descriptor.ATTR1]. *)
Definition FN_OID_GET_DESCRIPTOR_ATTR1 {E A : Type} `{OidEntry E}
    (from_asn1 : asn1_buf -> access (row_ptr E))
    (ATTR1 : oid_descriptor_t -> A)
    (oid : asn1_buf) (out1 : A) : access (Z * A) :=
  match from_asn1 oid with
  | Fault => Fault
  | Ok None => Ok (POLARSSL_ERR_OID_NOT_FOUND, out1)
  | Ok (Some (_, data)) => Ok (0, ATTR1 (descriptor_of data))
  end.

(** [int FN_NAME( const asn1_buf *oid, ATTR1_TYPE * ATTR1, ATTR2_TYPE * ATTR2 )] *)
Definition FN_OID_GET_ATTR2 {E A1 A2 : Type}
    (from_asn1 : asn1_buf -> access (row_ptr E))
    (ATTR1 : E -> A1) (ATTR2 : E -> A2)
    (oid : asn1_buf) (out1 : A1) (out2 : A2) : access (Z * (A1 * A2)) :=
  match from_asn1 oid with
  | Fault => Fault
  | Ok None => Ok (POLARSSL_ERR_OID_NOT_FOUND, (out1, out2))
  | Ok (Some (_, data)) =>
      let out1 := ATTR1 data in
      let out2 := ATTR2 data in
      Ok (0, (out1, out2))
  end.

(** [int FN_NAME( ATTR1_TYPE ATTR1, const char **oid_str )]: the while loop
    over the rows of LIST, [test cur] being [cur->ATTR1 == ATTR1]. *)
Fixpoint oid_by_attr_scan {E : Type} `{OidEntry E}
    (test : E -> bool) (rows : list E) (oid_str : option (list byte))
  : access (Z * option (list byte)) :=
  match rows with
  | [] => Fault
  | cur :: rest =>
      match asn1 (descriptor_of cur) with
      | None => Ok (POLARSSL_ERR_OID_NOT_FOUND, oid_str)
      | Some raw =>
          if test cur then Ok (0, Some raw)
          else oid_by_attr_scan test rest oid_str
      end
  end.

Definition FN_OID_GET_OID_BY_ATTR1 {E A : Type} `{OidEntry E}
    (LIST : list E) (eqb : A -> A -> bool) (ATTR1_of : E -> A)
    (ATTR1 : A) (oid_str : option (list byte))
  : access (Z * option (list byte)) :=
  oid_by_attr_scan (fun cur => eqb (ATTR1_of cur) ATTR1) LIST oid_str.

Definition FN_OID_GET_OID_BY_ATTR2 {E A1 A2 : Type} `{OidEntry E}
    (LIST : list E) (eqb1 : A1 -> A1 -> bool) (ATTR1_of : E -> A1)
    (eqb2 : A2 -> A2 -> bool) (ATTR2_of : E -> A2)
    (ATTR1 : A1) (ATTR2 : A2) (oid_str : option (list byte))
  : access (Z * option (list byte)) :=
  oid_by_attr_scan
    (fun cur => eqb1 (ATTR1_of cur) ATTR1 && eqb2 (ATTR2_of cur) ATTR2)
    LIST oid_str.

(** *** For X520 attribute types *)

Record oid_x520_attr_t : Type := mk_x520_attr {
  x520_descriptor : oid_descriptor_t;
  short_name : option String.string
}.

#[export] Instance x520_attr_entry : OidEntry oid_x520_attr_t := x520_descriptor.

Definition oid_x520_attr_type : list oid_x520_attr_t :=
  [ mk_x520_attr (desc OID_AT_CN "id-at-commonName" "Common Name")
                 (Some "CN"%string);
    mk_x520_attr (desc OID_AT_COUNTRY "id-at-countryName" "Country")
                 (Some "C"%string);
    mk_x520_attr (desc OID_AT_LOCALITY "id-at-locality" "Locality")
                 (Some "L"%string);
    mk_x520_attr (desc OID_AT_STATE "id-at-state" "State")
                 (Some "ST"%string);
    mk_x520_attr (desc OID_AT_ORGANIZATION "id-at-organizationName"
                       "Organization")
                 (Some "O"%string);
    mk_x520_attr (desc OID_AT_ORG_UNIT "id-at-organizationalUnitName"
                       "Org Unit")
                 (Some "OU"%string);
    mk_x520_attr (desc OID_PKCS9_EMAIL "emailAddress" "E-mail address")
                 (Some "emailAddress"%string);
    mk_x520_attr null_descriptor None ].

Definition oid_x520_attr_from_asn1 :=
  FN_OID_TYPED_FROM_ASN1 oid_x520_attr_type.
Definition oid_get_attr_short_name :=
  FN_OID_GET_ATTR1 oid_x520_attr_from_asn1 short_name.

(** *** For X509 extensions *)

Record oid_x509_ext_t : Type := mk_x509_ext {
  x509_ext_descriptor : oid_descriptor_t;
  ext_type : Z
}.

#[export] Instance x509_ext_entry : OidEntry oid_x509_ext_t := x509_ext_descriptor.

Definition oid_x509_ext : list oid_x509_ext_t :=
  [ mk_x509_ext (desc OID_BASIC_CONSTRAINTS "id-ce-basicConstraints"
                      "Basic Constraints")
                EXT_BASIC_CONSTRAINTS;
    mk_x509_ext (desc OID_KEY_USAGE "id-ce-keyUsage" "Key Usage")
                EXT_KEY_USAGE;
    mk_x509_ext (desc OID_EXTENDED_KEY_USAGE "id-ce-keyUsage"
                      "Extended Key Usage")
                EXT_EXTENDED_KEY_USAGE;
    mk_x509_ext (desc OID_SUBJECT_ALT_NAME "id-ce-subjectAltName"
                      "Subject Alt Name")
                EXT_SUBJECT_ALT_NAME;
    mk_x509_ext (desc OID_NS_CERT_TYPE "id-netscape-certtype"
                      "Netscape Certificate Type")
                EXT_NS_CERT_TYPE;
    mk_x509_ext null_descriptor 0 ].

Definition oid_x509_ext_from_asn1 := FN_OID_TYPED_FROM_ASN1 oid_x509_ext.
Definition oid_get_x509_ext_type :=
  FN_OID_GET_ATTR1 oid_x509_ext_from_asn1 ext_type.

Definition oid_ext_key_usage : list oid_descriptor_t :=
  [ desc OID_SERVER_AUTH "id-kp-serverAuth" "TLS Web Server Authentication";
    desc OID_CLIENT_AUTH "id-kp-clientAuth" "TLS Web Client Authentication";
    desc OID_CODE_SIGNING "id-kp-codeSigning" "Code Signing";
    desc OID_EMAIL_PROTECTION "id-kp-emailProtection" "E-mail Protection";
    desc OID_TIME_STAMPING "id-kp-timeStamping" "Time Stamping";
    desc OID_OCSP_SIGNING "id-kp-OCSPSigning" "OCSP Signing";
    null_descriptor ].

Definition oid_ext_key_usage_from_asn1 :=
  FN_OID_TYPED_FROM_ASN1 oid_ext_key_usage.
Definition oid_get_extended_key_usage :=
  FN_OID_GET_ATTR1 oid_ext_key_usage_from_asn1 description.

(** *** For SignatureAlgorithmIdentifier *)

Record oid_sig_alg_t : Type := mk_sig_alg {
  sig_alg_descriptor : oid_descriptor_t;
  sig_md_alg : md_type_t;
  sig_pk_alg : pk_type_t
}.

#[export] Instance sig_alg_entry : OidEntry oid_sig_alg_t := sig_alg_descriptor.

Definition oid_sig_alg : list oid_sig_alg_t :=
  [ mk_sig_alg (desc OID_PKCS1_MD2 "md2WithRSAEncryption" "RSA with MD2")
               POLARSSL_MD_MD2 POLARSSL_PK_RSA;
    mk_sig_alg (desc OID_PKCS1_MD4 "md4WithRSAEncryption" "RSA with MD4")
               POLARSSL_MD_MD4 POLARSSL_PK_RSA;
    mk_sig_alg (desc OID_PKCS1_MD5 "md5WithRSAEncryption" "RSA with MD5")
               POLARSSL_MD_MD5 POLARSSL_PK_RSA;
    mk_sig_alg (desc OID_PKCS1_SHA1 "sha-1WithRSAEncryption" "RSA with SHA1")
               POLARSSL_MD_SHA1 POLARSSL_PK_RSA;
    mk_sig_alg (desc OID_PKCS1_SHA224 "sha224WithRSAEncryption"
                     "RSA with SHA-224")
               POLARSSL_MD_SHA224 POLARSSL_PK_RSA;
    mk_sig_alg (desc OID_PKCS1_SHA256 "sha256WithRSAEncryption"
                     "RSA with SHA-256")
               POLARSSL_MD_SHA256 POLARSSL_PK_RSA;
    mk_sig_alg (desc OID_PKCS1_SHA384 "sha384WithRSAEncryption"
                     "RSA with SHA-384")
               POLARSSL_MD_SHA384 POLARSSL_PK_RSA;
    mk_sig_alg (desc OID_PKCS1_SHA512 "sha512WithRSAEncryption"
                     "RSA with SHA-512")
               POLARSSL_MD_SHA512 POLARSSL_PK_RSA;
    mk_sig_alg (desc OID_RSA_SHA_OBS "sha-1WithRSAEncryption" "RSA with SHA1")
               POLARSSL_MD_SHA1 POLARSSL_PK_RSA;
    mk_sig_alg null_descriptor POLARSSL_MD_NONE POLARSSL_PK_NONE ].

Definition oid_sig_alg_from_asn1 := FN_OID_TYPED_FROM_ASN1 oid_sig_alg.
Definition oid_get_sig_alg_desc :=
  FN_OID_GET_DESCRIPTOR_ATTR1 oid_sig_alg_from_asn1 description.
Definition oid_get_sig_alg :=
  FN_OID_GET_ATTR2 oid_sig_alg_from_asn1 sig_md_alg sig_pk_alg.
Definition oid_get_oid_by_sig_alg :=
  FN_OID_GET_OID_BY_ATTR2 oid_sig_alg
    pk_type_t_beq sig_pk_alg md_type_t_beq sig_md_alg.

(** *** For PublicKeyInfo *)

Record oid_pk_alg_t : Type := mk_pk_alg {
  pk_alg_descriptor : oid_descriptor_t;
  pk_alg : pk_type_t
}.

#[export] Instance pk_alg_entry : OidEntry oid_pk_alg_t := pk_alg_descriptor.

Definition oid_pk_alg : list oid_pk_alg_t :=
  [ mk_pk_alg (desc OID_PKCS1_RSA "rsaEncryption" "RSA") POLARSSL_PK_RSA;
    mk_pk_alg null_descriptor POLARSSL_PK_NONE ].

Definition oid_pk_alg_from_asn1 := FN_OID_TYPED_FROM_ASN1 oid_pk_alg.
Definition oid_get_pk_alg := FN_OID_GET_ATTR1 oid_pk_alg_from_asn1 pk_alg.

(** *** For PKCS#5 PBES2 encryption algorithm *)

Record oid_cipher_alg_t : Type := mk_cipher_alg {
  cipher_alg_descriptor : oid_descriptor_t;
  cipher_alg : cipher_type_t
}.

#[export] Instance cipher_alg_entry : OidEntry oid_cipher_alg_t :=
  cipher_alg_descriptor.

Definition oid_cipher_alg : list oid_cipher_alg_t :=
  [ mk_cipher_alg (desc OID_DES_CBC "desCBC" "DES-CBC")
                  POLARSSL_CIPHER_DES_CBC;
    mk_cipher_alg (desc OID_DES_EDE3_CBC "des-ede3-cbc" "DES-EDE3-CBC")
                  POLARSSL_CIPHER_DES_EDE3_CBC;
    mk_cipher_alg null_descriptor POLARSSL_CIPHER_NONE ].

Definition oid_cipher_alg_from_asn1 := FN_OID_TYPED_FROM_ASN1 oid_cipher_alg.
Definition oid_get_cipher_alg :=
  FN_OID_GET_ATTR1 oid_cipher_alg_from_asn1 cipher_alg.

(** *** For digestAlgorithm *)

Record oid_md_alg_t : Type := mk_md_alg {
  md_alg_descriptor : oid_descriptor_t;
  md_alg : md_type_t
}.

#[export] Instance md_alg_entry : OidEntry oid_md_alg_t := md_alg_descriptor.

Definition oid_md_alg : list oid_md_alg_t :=
  [ mk_md_alg (desc OID_DIGEST_ALG_MD2 "id-md2" "MD2") POLARSSL_MD_MD2;
    mk_md_alg (desc OID_DIGEST_ALG_MD4 "id-md4" "MD4") POLARSSL_MD_MD4;
    mk_md_alg (desc OID_DIGEST_ALG_MD5 "id-md5" "MD5") POLARSSL_MD_MD5;
    mk_md_alg (desc OID_DIGEST_ALG_SHA1 "id-sha1" "SHA-1") POLARSSL_MD_SHA1;
    mk_md_alg (desc OID_DIGEST_ALG_SHA1 "id-sha1" "SHA-1") POLARSSL_MD_SHA1;
    mk_md_alg (desc OID_DIGEST_ALG_SHA224 "id-sha224" "SHA-224")
              POLARSSL_MD_SHA224;
    mk_md_alg (desc OID_DIGEST_ALG_SHA256 "id-sha256" "SHA-256")
              POLARSSL_MD_SHA256;
    mk_md_alg (desc OID_DIGEST_ALG_SHA384 "id-sha384" "SHA-384")
              POLARSSL_MD_SHA384;
    mk_md_alg (desc OID_DIGEST_ALG_SHA512 "id-sha512" "SHA-512")
              POLARSSL_MD_SHA512;
    mk_md_alg null_descriptor POLARSSL_MD_NONE ].

Definition oid_md_alg_from_asn1 := FN_OID_TYPED_FROM_ASN1 oid_md_alg.
Definition oid_get_md_alg := FN_OID_GET_ATTR1 oid_md_alg_from_asn1 md_alg.
Definition oid_get_oid_by_md :=
  FN_OID_GET_OID_BY_ATTR1 oid_md_alg md_type_t_beq md_alg.

(** *** For PKCS#12 PBEs *)

Record oid_pkcs12_pbe_alg_t : Type := mk_pkcs12_pbe_alg {
  pkcs12_pbe_descriptor : oid_descriptor_t;
  pbe_md_alg : md_type_t;
  pbe_cipher_alg : cipher_type_t
}.

#[export] Instance pkcs12_pbe_alg_entry : OidEntry oid_pkcs12_pbe_alg_t :=
  pkcs12_pbe_descriptor.

Definition oid_pkcs12_pbe_alg : list oid_pkcs12_pbe_alg_t :=
  [ mk_pkcs12_pbe_alg
      (desc OID_PKCS12_PBE_SHA1_DES3_EDE_CBC "pbeWithSHAAnd3-KeyTripleDES-CBC"
            "PBE with SHA1 and 3-Key 3DES")
      POLARSSL_MD_SHA1 POLARSSL_CIPHER_DES_EDE3_CBC;
    mk_pkcs12_pbe_alg
      (desc OID_PKCS12_PBE_SHA1_DES2_EDE_CBC "pbeWithSHAAnd2-KeyTripleDES-CBC"
            "PBE with SHA1 and 2-Key 3DES")
      POLARSSL_MD_SHA1 POLARSSL_CIPHER_DES_EDE_CBC;
    mk_pkcs12_pbe_alg null_descriptor POLARSSL_MD_NONE POLARSSL_CIPHER_NONE ].

Definition oid_pkcs12_pbe_alg_from_asn1 :=
  FN_OID_TYPED_FROM_ASN1 oid_pkcs12_pbe_alg.
Definition oid_get_pkcs12_pbe_alg :=
  FN_OID_GET_ATTR2 oid_pkcs12_pbe_alg_from_asn1 pbe_md_alg pbe_cipher_alg.

End Registry.

(** ** Vocabulary of the statements *)

Section MatcherVocabulary.

Context {E : Type} {entry : OidEntry E}.

Definition is_sentinel (e : E) : Prop := asn1 (descriptor_of e) = None.

(** The row's stored raw OID has the length of the input and the same
    bytes. *)
Definition raw_matches (e : E) (oid : list byte) (len : nat) : Prop :=
  exists raw, asn1 (descriptor_of e) = Some raw
              /\ strlen raw = len /\ c_str raw = firstn len oid.

(** All rows before position [k] of [rows] are real rows that do not
    match. *)
Definition skipped (rows : list E) (k : nat) (oid : list byte) (len : nat)
  : Prop :=
  forall j e, (j < k)%nat -> nth_error rows j = Some e ->
              ~ is_sentinel e /\ ~ raw_matches e oid len.

Definition is_sentinelb (e : E) : bool :=
  match asn1 (descriptor_of e) with None => true | Some _ => false end.

(** Some row of the table is a sentinel. *)
Definition terminated (rows : list E) : bool := existsb is_sentinelb rows.

(** Every raw OID stored in the table is a non-empty C string. *)
Definition raw_nonempty (rows : list E) : bool :=
  forallb (fun e => match asn1 (descriptor_of e) with
                    | Some raw => negb (strlen raw =? 0)%nat
                    | None => true
                    end) rows.

(** The sentinel is the last row and only that one. *)
Fixpoint sentinel_last (rows : list E) : bool :=
  match rows with
  | [] => false
  | [s] => is_sentinelb s
  | cur :: rest => negb (is_sentinelb cur) && sentinel_last rest
  end.

End MatcherVocabulary.

Section RegistryVocabulary.

Context {oid_macros : oid_h} {x509_macros : x509_h}.

(** Every OID_xxx macro stored in a table is a non-empty C string, as the
    content bytes of an OID are. *)
Definition registry_raw_nonempty : bool :=
  raw_nonempty oid_x520_attr_type && raw_nonempty oid_x509_ext
  && raw_nonempty oid_ext_key_usage && raw_nonempty oid_sig_alg
  && raw_nonempty oid_pk_alg && raw_nonempty oid_cipher_alg
  && raw_nonempty oid_md_alg && raw_nonempty oid_pkcs12_pbe_alg.

(** What a two-attribute forward lookup over [LIST] may leave behind, given
    the contents [out1], [out2] of the two output locations before the call:
    success with both outputs taken from one row that matches the input;
    or not-found with both outputs as they were, no row matching; or a read
    beyond an input buffer shorter than its [len]. *)
Definition atomic_lookup {E A1 A2 : Type} `{OidEntry E}
    (LIST : list E) (ATTR1 : E -> A1) (ATTR2 : E -> A2)
    (oid : asn1_buf) (out1 : A1) (out2 : A2)
    (result : access (Z * (A1 * A2))) : Prop :=
  (exists i e bytes,
      p oid = Some bytes /\ nth_error LIST i = Some e
      /\ raw_matches e bytes (len oid)
      /\ result = Ok (0, (ATTR1 e, ATTR2 e)))
  \/ (result = Ok (POLARSSL_ERR_OID_NOT_FOUND, (out1, out2))
      /\ forall bytes e, p oid = Some bytes -> In e LIST ->
                         ~ raw_matches e bytes (len oid))
  \/ (result = Fault
      /\ exists bytes, p oid = Some bytes /\ (length bytes < len oid)%nat).

End RegistryVocabulary.

(** ** The dotted-decimal rendering, as the specification words it *)

(** Arcs after the first byte: base-128, big-endian, over unbounded
    integers; a byte with its high bit clear ends an arc. *)
Fixpoint spec_arcs (bs : list byte) (value : Z) : list Z :=
  match bs with
  | [] => []
  | b :: rest =>
      let value := Z.lor (Z.shiftl value 7) (Z.land (byte_val b) 0x7F) in
      if Z.testbit (byte_val b) 7 then spec_arcs rest value
      else value :: spec_arcs rest 0
  end.

(** All arcs of an OID: the first byte holds two. *)
Definition spec_arc_list (bs : list byte) : list Z :=
  match bs with
  | [] => []
  | b0 :: rest => byte_val b0 / 40 :: byte_val b0 mod 40 :: spec_arcs rest 0
  end.

(** Arcs in decimal, joined by dots. *)
Definition dotted (arcs : list Z) : list ascii :=
  match arcs with
  | [] => []
  | a :: rest => fmt_d a ++ flat_map (fun v => "."%char :: fmt_d v) rest
  end.

Definition spec_to_numeric_string (bs : list byte) : list ascii :=
  dotted (spec_arc_list bs).

(** The number that a string of decimal digits denotes. *)
Definition digit_val (c : ascii) : Z := Z.of_nat (nat_of_ascii c) - 48.

Definition decimal_value (cs : list ascii) : Z :=
  fold_left (fun a c => 10 * a + digit_val c) cs 0.

Definition is_digit (c : ascii) : Prop :=
  exists d, 0 <= d < 10 /\ c = digit_char d.

(** ** Vocabulary for the output buffer *)

(** The character of [cs] at offset [off], if there is one. *)
Definition image (cs : list ascii) (off : Z) : option ascii :=
  if off <? 0 then None else nth_error cs (Z.to_nat off).

(** What a buffer of [size] bytes can hold of [text]: nothing when there is
    no text, else its first [size - 1] characters and a terminator. *)
Definition stored_text (size : Z) (text : list ascii) : list ascii :=
  match text with
  | [] => []
  | _ => firstn (Z.to_nat (size - 1)) text ++ [NUL]
  end.

(** One formatted write followed by SAFE_SNPRINTF. *)
Definition emit (c : cursor) (s : list ascii) : flow :=
  let (ret, c1) := snprintf c s in SAFE_SNPRINTF ret c1.

Fixpoint emit_all (pieces : list (list ascii)) (c : cursor) : flow :=
  match pieces with
  | [] => Next c
  | s :: rest => c' <- emit c s ;; emit_all rest c'
  end.

(** The text of ".%d". *)
Definition arc_piece (a : Z) : list ascii := "."%char :: fmt_d a.

(** The text of "%d.%d" for the first byte. *)
Definition first_piece (b : byte) : list ascii :=
  fmt_d (byte_val b / 40) ++ "."%char :: fmt_d (byte_val b mod 40).

(** The formatted writes that rendering [bs] takes, in order. *)
Definition pieces (bs : list byte) : list (list ascii) :=
  match bs with
  | [] => []
  | b0 :: rest => first_piece b0 :: map arc_piece (spec_arcs rest 0)
  end.

(** The state of the loop after writing [acc] into a buffer of [size]. *)
Definition cursor_after (size : Z) (c : cursor) (acc : list ascii) : Prop :=
  cur_p c = Z.of_nat (length acc)
  /\ cur_n c = size - Z.of_nat (length acc)
  /\ Z.of_nat (length acc) <= size
  /\ forall off, load (cur_mem c) off = image (stored_text size acc) off.

(** The stores a call made, when it returned. *)
Definition stores_of (o : outcome) : list store :=
  match o with
  | Returned _ mem => mem
  | Crashed => []
  end.

(** ** More vocabulary: lookups by tag, known rows, the MSVC wrapper *)

Section LookupVocabulary.

Context {E : Type} {entry : OidEntry E}.

(** Two rows store the same raw OID, as C strings. *)
Definition same_raw (a b : E) : bool :=
  match asn1 (descriptor_of a), asn1 (descriptor_of b) with
  | Some x, Some y => bytes_eqb (c_str x) (c_str y)
  | _, _ => false
  end.

(** No two rows of the table store the same raw OID, except rows that
    [eqv] relates. *)
Fixpoint raw_distinct_upto (eqv : E -> E -> bool) (rows : list E) : bool :=
  match rows with
  | [] => true
  | cur :: rest =>
      forallb (fun e => negb (same_raw cur e) || eqv cur e) rest
      && raw_distinct_upto eqv rest
  end.

Definition raw_distinct : list E -> bool :=
  raw_distinct_upto (fun _ _ => false).

End LookupVocabulary.

Section AccessorVocabulary.

Context {oid_macros : oid_h} {x509_macros : x509_h}.

(** What a one-attribute forward lookup over [LIST] may leave behind, given
    the content [out1] of the output location before the call: success with
    the output taken from the first row that matches the input; or
    not-found with the output as it was, no row matching; or a read beyond
    an input buffer shorter than its [len]. *)
Definition single_lookup {E A : Type} `{OidEntry E}
    (LIST : list E) (ATTR1 : E -> A)
    (oid : asn1_buf) (out1 : A) (result : access (Z * A)) : Prop :=
  (exists i e bytes,
      p oid = Some bytes /\ nth_error LIST i = Some e
      /\ raw_matches e bytes (len oid)
      /\ skipped LIST i bytes (len oid)
      /\ result = Ok (0, ATTR1 e))
  \/ (result = Ok (POLARSSL_ERR_OID_NOT_FOUND, out1)
      /\ forall bytes e, p oid = Some bytes -> In e LIST ->
                         ~ raw_matches e bytes (len oid))
  \/ (result = Fault
      /\ exists bytes, p oid = Some bytes /\ (length bytes < len oid)%nat).

(** What a lookup of an OID by tag over [LIST] may leave behind, [P] being
    the comparison of the tags and [oid_str] the content of the output
    location before the call: success with the raw OID of the first row
    that satisfies [P]; or not-found with the output as it was, no row
    satisfying [P]. *)
Definition reverse_lookup {E : Type} `{OidEntry E}
    (P : E -> Prop) (LIST : list E) (oid_str : option (list byte))
    (result : access (Z * option (list byte))) : Prop :=
  (exists i e raw,
      nth_error LIST i = Some e /\ asn1 (descriptor_of e) = Some raw /\ P e
      /\ (forall j e', (j < i)%nat -> nth_error LIST j = Some e' -> ~ P e')
      /\ result = Ok (0, Some raw))
  \/ (result = Ok (POLARSSL_ERR_OID_NOT_FOUND, oid_str)
      /\ forall e, In e LIST -> ~ is_sentinel e -> ~ P e).

(** Within each table the raw OIDs are pairwise different strings; in the
    digest table, which lists SHA-1 twice, rows with one raw OID have one
    digest tag. *)
Definition registry_raw_distinct : bool :=
  raw_distinct oid_x520_attr_type && raw_distinct oid_x509_ext
  && raw_distinct oid_ext_key_usage && raw_distinct oid_sig_alg
  && raw_distinct oid_pk_alg && raw_distinct oid_cipher_alg
  && raw_distinct_upto (fun a b => md_type_t_beq (md_alg a) (md_alg b))
                       oid_md_alg
  && raw_distinct oid_pkcs12_pbe_alg.

End AccessorVocabulary.

(** The characters that a rendering and its terminators consist of. *)
Definition rendering_char (c : ascii) : Prop :=
  is_digit c \/ c = "."%char \/ c = NUL.

(** A byte with its high bit set: the arc goes on. *)
Definition continuation (b : byte) : Prop := Z.testbit (byte_val b) 7 = true.

(** [compat_snprintf], the replacement of [snprintf] built under _MSC_VER:
    [res] is what [vsnprintf( str, size, format, ap )] returned, and the
    value is [(int) size + 20] when that is negative. *)
Definition compat_snprintf (sizeof_value : nat) (size res : Z) : Z :=
  if res <? 0 then to_int sizeof_value (to_int sizeof_value size + 20)
  else res.

(** ** Sample inputs *)

(** The DER content bytes of the registered OIDs as the standards assign
    them, with PolarSSL's error code: one instance of the header
    parameters, used to run the lookups on concrete data. *)
Definition pkcs1 (last : byte) : list byte :=
  [x2a; x86; x48; x86; xf7; x0d; x01; x01; last].

Definition standard_oid_h : oid_h := {|
  POLARSSL_ERR_OID_NOT_FOUND := -46;
  OID_AT_CN := [x55; x04; x03];
  OID_AT_COUNTRY := [x55; x04; x06];
  OID_AT_LOCALITY := [x55; x04; x07];
  OID_AT_STATE := [x55; x04; x08];
  OID_AT_ORGANIZATION := [x55; x04; x0a];
  OID_AT_ORG_UNIT := [x55; x04; x0b];
  OID_PKCS9_EMAIL := [x2a; x86; x48; x86; xf7; x0d; x01; x09; x01];
  OID_BASIC_CONSTRAINTS := [x55; x1d; x13];
  OID_KEY_USAGE := [x55; x1d; x0f];
  OID_EXTENDED_KEY_USAGE := [x55; x1d; x25];
  OID_SUBJECT_ALT_NAME := [x55; x1d; x11];
  OID_NS_CERT_TYPE := [x60; x86; x48; x01; x86; xf8; x42; x01; x01];
  OID_SERVER_AUTH := [x2b; x06; x01; x05; x05; x07; x03; x01];
  OID_CLIENT_AUTH := [x2b; x06; x01; x05; x05; x07; x03; x02];
  OID_CODE_SIGNING := [x2b; x06; x01; x05; x05; x07; x03; x03];
  OID_EMAIL_PROTECTION := [x2b; x06; x01; x05; x05; x07; x03; x04];
  OID_TIME_STAMPING := [x2b; x06; x01; x05; x05; x07; x03; x08];
  OID_OCSP_SIGNING := [x2b; x06; x01; x05; x05; x07; x03; x09];
  OID_PKCS1_MD2 := pkcs1 x02;
  OID_PKCS1_MD4 := pkcs1 x03;
  OID_PKCS1_MD5 := pkcs1 x04;
  OID_PKCS1_SHA1 := pkcs1 x05;
  OID_PKCS1_SHA224 := pkcs1 x0e;
  OID_PKCS1_SHA256 := pkcs1 x0b;
  OID_PKCS1_SHA384 := pkcs1 x0c;
  OID_PKCS1_SHA512 := pkcs1 x0d;
  OID_RSA_SHA_OBS := [x2b; x0e; x03; x02; x1d];
  OID_PKCS1_RSA := pkcs1 x01;
  OID_DES_CBC := [x2b; x0e; x03; x02; x07];
  OID_DES_EDE3_CBC := [x2a; x86; x48; x86; xf7; x0d; x03; x07];
  OID_DIGEST_ALG_MD2 := [x2a; x86; x48; x86; xf7; x0d; x02; x02];
  OID_DIGEST_ALG_MD4 := [x2a; x86; x48; x86; xf7; x0d; x02; x04];
  OID_DIGEST_ALG_MD5 := [x2a; x86; x48; x86; xf7; x0d; x02; x05];
  OID_DIGEST_ALG_SHA1 := [x2b; x0e; x03; x02; x1a];
  OID_DIGEST_ALG_SHA224 := [x60; x86; x48; x01; x65; x03; x04; x02; x04];
  OID_DIGEST_ALG_SHA256 := [x60; x86; x48; x01; x65; x03; x04; x02; x01];
  OID_DIGEST_ALG_SHA384 := [x60; x86; x48; x01; x65; x03; x04; x02; x02];
  OID_DIGEST_ALG_SHA512 := [x60; x86; x48; x01; x65; x03; x04; x02; x03];
  OID_PKCS12_PBE_SHA1_DES3_EDE_CBC :=
    [x2a; x86; x48; x86; xf7; x0d; x01; x0c; x01; x03];
  OID_PKCS12_PBE_SHA1_DES2_EDE_CBC :=
    [x2a; x86; x48; x86; xf7; x0d; x01; x0c; x01; x04]
|}.

Definition standard_x509_h : x509_h := {|
  EXT_BASIC_CONSTRAINTS := 256;
  EXT_KEY_USAGE := 4;
  EXT_EXTENDED_KEY_USAGE := 2048;
  EXT_SUBJECT_ALT_NAME := 32;
  EXT_NS_CERT_TYPE := 65536
|}.

(** rsaEncryption, 1.2.840.113549.1.1.1 *)
Definition rsaEncryption : list byte := pkcs1 x01.

(** id-at-commonName, 2.5.4.3 *)
Definition id_at_commonName : list byte := [x55; x04; x03].

(** ** Properties of the generic matcher *)

Lemma bytes_eqb_eq (a b : list byte) : bytes_eqb a b = true <-> a = b.
Proof.
  revert b; induction a as [|x a IH]; intros [|y b]; simpl;
    try (split; [discriminate | congruence]); try tauto.
  rewrite andb_true_iff, IH. split.
  - intros [Hxy ->]. now rewrite (Byte.byte_dec_bl _ _ Hxy).
  - intros [= -> ->]. split; [apply Byte.byte_dec_lb|]; reflexivity.
Qed.

Lemma c_str_firstn (raw : list byte) : firstn (strlen raw) raw = c_str raw.
Proof.
  unfold strlen. induction raw as [|b raw IH]; simpl; [reflexivity|].
  destruct (Byte.eqb b x00); simpl; [reflexivity | now rewrite IH].
Qed.

(** A literal without a zero byte is its own C string. *)
Lemma c_str_nul_free (raw : list byte) : ~ In x00 raw -> c_str raw = raw.
Proof.
  induction raw as [|b raw IH]; [reflexivity|]. intros Hnul. simpl.
  destruct (Byte.eqb b x00) eqn:Hb.
  - apply Byte.byte_dec_bl in Hb. subst b. exfalso. apply Hnul. now left.
  - rewrite IH; [reflexivity|]. intros Hin. apply Hnul. now right.
Qed.

Lemma strlen_le (raw : list byte) : (strlen raw <= length raw)%nat.
Proof.
  unfold strlen. induction raw as [|b raw IH]; simpl; [lia|].
  destruct (Byte.eqb b x00); simpl; lia.
Qed.

(** What [strlen( cur->asn1 ) == len && memcmp( cur->asn1, oid, len ) == 0]
    decides once the lengths agree. *)
Lemma memcmp_eq_spec (raw oid : list byte) (len : nat) :
  strlen raw = len ->
  match memcmp_eq raw oid len with
  | Ok b => (len <= length oid)%nat /\ (b = true <-> c_str raw = firstn len oid)
  | Fault => (length oid < len)%nat
  end.
Proof.
  intros Hlen. unfold memcmp_eq.
  pose proof (strlen_le raw) as Hle. rewrite Hlen in Hle.
  destruct (len <=? length raw)%nat eqn:Ha; [|apply Nat.leb_gt in Ha; lia].
  destruct (len <=? length oid)%nat eqn:Hb; simpl.
  - apply Nat.leb_le in Hb. split; [exact Hb|].
    rewrite bytes_eqb_eq, <- Hlen, c_str_firstn. reflexivity.
  - now apply Nat.leb_gt in Hb.
Qed.

Section Matcher.

Context {E : Type} {entry : OidEntry E}.

Lemma skipped_cons (cur : E) (rest : list E) (k : nat) oid len :
  ~ is_sentinel cur -> ~ raw_matches cur oid len ->
  skipped rest k oid len -> skipped (cur :: rest) (S k) oid len.
Proof.
  intros Hs Hm Hk [|j] e Hj; simpl.
  - intros [= <-]. now split.
  - apply Hk. lia.
Qed.

Lemma descriptor_scan_spec (rows : list E) (idx : nat) oid len :
  match descriptor_scan rows idx oid len with
  | Ok (Some (i, e)) =>
      exists k, i = (idx + k)%nat /\ nth_error rows k = Some e
                /\ raw_matches e oid len /\ skipped rows k oid len
  | Ok None =>
      exists k s, nth_error rows k = Some s /\ is_sentinel s
                  /\ skipped rows k oid len
  | Fault =>
      skipped rows (length rows) oid len \/ (length oid < len)%nat
  end.
Proof.
  revert idx. induction rows as [|cur rest IH]; intros idx; simpl.
  - left. intros j e Hj. inversion Hj.
  - destruct (asn1 (descriptor_of cur)) as [raw|] eqn:Hraw.
    + assert (Hs : ~ is_sentinel cur) by (unfold is_sentinel; congruence).
      assert (Hstep : ~ raw_matches cur oid len ->
        match descriptor_scan rest (S idx) oid len with
        | Ok (Some (i, e)) =>
            exists k, i = (idx + k)%nat /\ nth_error (cur :: rest) k = Some e
                      /\ raw_matches e oid len
                      /\ skipped (cur :: rest) k oid len
        | Ok None =>
            exists k s, nth_error (cur :: rest) k = Some s /\ is_sentinel s
                        /\ skipped (cur :: rest) k oid len
        | Fault =>
            skipped (cur :: rest) (S (length rest)) oid len
            \/ (length oid < len)%nat
        end).
      { intros Hm. specialize (IH (S idx)).
        destruct (descriptor_scan rest (S idx) oid len) as [[[i e]|]|].
        - destruct IH as (k & -> & Hk & Hmk & Hsk).
          exists (S k). split; [lia|]. split; [exact Hk|]. split; [exact Hmk|].
          now apply skipped_cons.
        - destruct IH as (k & s & Hk & Hsent & Hsk).
          exists (S k), s. split; [exact Hk|]. split; [exact Hsent|].
          now apply skipped_cons.
        - destruct IH as [Hsk | Hshort]; [left | now right].
          now apply skipped_cons. }
      destruct (strlen raw =? len)%nat eqn:Hlen.
      * apply Nat.eqb_eq in Hlen.
        pose proof (memcmp_eq_spec raw oid len Hlen) as Hcmp.
        destruct (memcmp_eq raw oid len) as [[|]|].
        -- exists 0%nat. split; [lia|]. split; [reflexivity|]. split.
           ++ exists raw. split; [exact Hraw|]. split; [exact Hlen|].
              now apply Hcmp.
           ++ intros j e Hj. lia.
        -- apply Hstep. intros (raw' & Hraw' & _ & Heq).
           rewrite Hraw in Hraw'. injection Hraw' as <-.
           destruct Hcmp as [_ Hcmp]. apply Hcmp in Heq. discriminate.
        -- now right.
      * apply Nat.eqb_neq in Hlen. apply Hstep.
        intros (raw' & Hraw' & Hlen' & _).
        rewrite Hraw in Hraw'. injection Hraw' as <-. contradiction.
    + exists 0%nat, cur. split; [reflexivity|]. split; [exact Hraw|].
      intros j e Hj. lia.
Qed.

(** A pointer returned by the matcher never points to a sentinel row. *)
Lemma descriptor_scan_not_sentinel (rows : list E) (idx : nat) oid len i e :
  descriptor_scan rows idx oid len = Ok (Some (i, e)) -> ~ is_sentinel e.
Proof.
  intros Hscan. pose proof (descriptor_scan_spec rows idx oid len) as Hspec.
  rewrite Hscan in Hspec. destruct Hspec as (k & _ & _ & (raw & Hraw & _) & _).
  unfold is_sentinel. congruence.
Qed.

(** Rows after the first sentinel are never looked at. *)
Lemma descriptor_scan_stops_at_sentinel (pre post post' : list E) (s : E)
    (idx : nat) oid len :
  is_sentinel s ->
  descriptor_scan (pre ++ s :: post) idx oid len
  = descriptor_scan (pre ++ s :: post') idx oid len.
Proof.
  intros Hs. revert idx. induction pre as [|cur pre IH]; intros idx; simpl.
  - unfold is_sentinel in Hs. now rewrite Hs.
  - destruct (asn1 (descriptor_of cur)); [|reflexivity].
    destruct (strlen l =? len)%nat; [|apply IH].
    destruct (memcmp_eq l oid len) as [[|]|]; try reflexivity. apply IH.
Qed.

End Matcher.

Section Tables.

Context {E : Type} {entry : OidEntry E}.

Lemma is_sentinelb_spec (e : E) : is_sentinelb e = true <-> is_sentinel e.
Proof.
  unfold is_sentinelb, is_sentinel.
  destruct (asn1 (descriptor_of e)); split; congruence.
Qed.

Lemma descriptor_scan_empty_input (rows : list E) (idx : nat) oid :
  terminated rows = true -> raw_nonempty rows = true ->
  descriptor_scan rows idx oid 0 = Ok None.
Proof.
  revert idx. induction rows as [|cur rest IH]; intros idx; simpl.
  - discriminate.
  - unfold is_sentinelb at 1.
    destruct (asn1 (descriptor_of cur)) as [raw|]; simpl; [|reflexivity].
    intros Hterm Hne. apply andb_true_iff in Hne as [Hraw Hrest].
    apply negb_true_iff in Hraw. rewrite Hraw. now apply IH.
Qed.

Lemma sentinel_last_position (rows : list E) (k : nat) (s : E) :
  sentinel_last rows = true -> nth_error rows k = Some s ->
  is_sentinel s -> S k = length rows.
Proof.
  revert k. induction rows as [|cur rest IH]; intros k; simpl; [discriminate|].
  destruct rest as [|r rest'].
  - intros _. destruct k as [|k]; simpl; [reflexivity|].
    destruct k; discriminate.
  - intros Hlast. apply andb_true_iff in Hlast as [Hcur Hrest].
    destruct k as [|k]; simpl.
    + intros [= <-] Hs. apply is_sentinelb_spec in Hs.
      rewrite Hs in Hcur. discriminate.
    + intros Hk Hs. f_equal. now apply IH.
Qed.

(** When the scan has skipped every row before the final sentinel, no row of
    the table matches. *)
Lemma skipped_all_no_match (rows : list E) (k : nat) (s : E) oid len :
  sentinel_last rows = true -> nth_error rows k = Some s -> is_sentinel s ->
  skipped rows k oid len ->
  forall e, In e rows -> ~ raw_matches e oid len.
Proof.
  intros Hlast Hk Hs Hskip e Hin.
  pose proof (sentinel_last_position rows k s Hlast Hk Hs) as Hpos.
  apply In_nth_error in Hin as [j Hj].
  assert (Hjlt : (j < length rows)%nat).
  { apply nth_error_Some. congruence. }
  destruct (Nat.eq_dec j k) as [->|Hne].
  - rewrite Hk in Hj. injection Hj as <-.
    intros (raw & Hraw & _). unfold is_sentinel in Hs. congruence.
  - apply (Hskip j e); [lia | exact Hj].
Qed.

End Tables.

(** C5: for every table and every OID buffer, the generic matcher walks the
    rows in declaration order up to the sentinel, a row matches exactly when
    its stored raw OID has the length of the input and the same bytes, the
    first such row is returned, and NULL (not found) is returned when no row
    before the sentinel matches.  ([Fault], a table without sentinel or an
    input shorter than its [len], is the remaining case.) *)
Theorem oid_descriptor_from_buf_first_match
    (E : Type) (entry : OidEntry E)
    (tbl : list E) (oid : list byte) (len : nat) :
  match oid_descriptor_from_buf (Some tbl) (Some oid) len with
  | Ok (Some (i, e)) =>
      nth_error tbl i = Some e /\ raw_matches e oid len
      /\ (forall j e', (j < i)%nat -> nth_error tbl j = Some e' ->
                       ~ is_sentinel e' /\ ~ raw_matches e' oid len)
  | Ok None =>
      exists k s, nth_error tbl k = Some s /\ is_sentinel s
      /\ (forall j e', (j < k)%nat -> nth_error tbl j = Some e' ->
                       ~ is_sentinel e' /\ ~ raw_matches e' oid len)
  | Fault =>
      (forall j e', nth_error tbl j = Some e' ->
                    ~ is_sentinel e' /\ ~ raw_matches e' oid len)
      \/ (length oid < len)%nat
  end.
Proof.
  unfold oid_descriptor_from_buf.
  pose proof (descriptor_scan_spec tbl 0 oid len) as Hspec.
  destruct (descriptor_scan tbl 0 oid len) as [[[i e]|]|].
  - destruct Hspec as (k & -> & Hk & Hm & Hskip). simpl.
    split; [exact Hk|]. split; [exact Hm | exact Hskip].
  - exact Hspec.
  - destruct Hspec as [Hskip | Hshort]; [left | now right].
    intros j e' Hj. apply (Hskip j e'); [|exact Hj].
    apply nth_error_Some. congruence.
Qed.

(** ** Properties of the typed accessors *)

Section Accessors.

Context {oid_macros : oid_h} {x509_macros : x509_h}.

Lemma sentinel_last_exists {E : Type} `{OidEntry E} (rows : list E) :
  sentinel_last rows = true ->
  exists k s, nth_error rows k = Some s /\ is_sentinel s.
Proof.
  induction rows as [|cur rest IH]; simpl; [discriminate|].
  destruct rest as [|r rest'].
  - intros Hs. exists 0%nat, cur. split; [reflexivity|].
    now apply is_sentinelb_spec.
  - intros Hlast. apply andb_true_iff in Hlast as [_ Hrest].
    destruct (IH Hrest) as (k & s & Hk & Hs). now exists (S k), s.
Qed.

Lemma typed_from_asn1_empty {E : Type} `{OidEntry E} (LIST : list E) t ptr :
  terminated LIST = true -> raw_nonempty LIST = true ->
  FN_OID_TYPED_FROM_ASN1 LIST {| tag := t; len := 0; p := ptr |} = Ok None.
Proof.
  intros Hterm Hne. unfold FN_OID_TYPED_FROM_ASN1, oid_descriptor_from_buf.
  simpl. destruct ptr; [|reflexivity].
  now apply descriptor_scan_empty_input.
Qed.

Lemma FN_OID_GET_ATTR2_atomic {E A1 A2 : Type} `{OidEntry E}
    (LIST : list E) (ATTR1 : E -> A1) (ATTR2 : E -> A2)
    (oid : asn1_buf) (out1 : A1) (out2 : A2) :
  sentinel_last LIST = true ->
  atomic_lookup LIST ATTR1 ATTR2 oid out1 out2
    (FN_OID_GET_ATTR2 (FN_OID_TYPED_FROM_ASN1 LIST) ATTR1 ATTR2 oid out1 out2).
Proof.
  intros Hlast.
  unfold atomic_lookup, FN_OID_GET_ATTR2, FN_OID_TYPED_FROM_ASN1,
    oid_descriptor_from_buf.
  destruct (p oid) as [bytes|].
  - pose proof (descriptor_scan_spec LIST 0 bytes (len oid)) as Hspec.
    destruct (descriptor_scan LIST 0 bytes (len oid)) as [[[i e]|]|].
    + left. destruct Hspec as (k & -> & Hk & Hm & _).
      exists k, e, bytes. simpl. auto.
    + right; left. split; [reflexivity|].
      destruct Hspec as (k & s & Hk & Hs & Hskip).
      intros bytes' e [= <-]. now apply (skipped_all_no_match LIST k s).
    + right; right. split; [reflexivity|]. exists bytes.
      split; [reflexivity|]. destruct Hspec as [Hskip | Hshort]; [|exact Hshort].
      destruct (sentinel_last_exists LIST Hlast) as (k & s & Hk & Hs).
      exfalso. destruct (Hskip k s) as [Hns _]; [|exact Hk|now apply Hns].
      apply nth_error_Some. congruence.
  - right; left. split; [reflexivity|]. intros bytes e Hp. discriminate.
Qed.

End Accessors.

(** C4: the pair (RSA, SHA1) occurs in two rows of the signature-algorithm
    table, row 3 with OID_PKCS1_SHA1 and row 8 with the obsolete
    OID_RSA_SHA_OBS; the reverse lookup by that pair always succeeds with the
    raw OID of the row declared first, OID_PKCS1_SHA1. *)
Theorem oid_get_oid_by_sig_alg_rsa_sha1_first_declared
    (oid_macros : oid_h) (oid_str : option (list byte)) :
  oid_get_oid_by_sig_alg POLARSSL_PK_RSA POLARSSL_MD_SHA1 oid_str
  = Ok (0, Some OID_PKCS1_SHA1)
  /\ nth_error oid_sig_alg 3
     = Some (mk_sig_alg (desc OID_PKCS1_SHA1 "sha-1WithRSAEncryption"
                              "RSA with SHA1")
                        POLARSSL_MD_SHA1 POLARSSL_PK_RSA)
  /\ nth_error oid_sig_alg 8
     = Some (mk_sig_alg (desc OID_RSA_SHA_OBS "sha-1WithRSAEncryption"
                              "RSA with SHA1")
                        POLARSSL_MD_SHA1 POLARSSL_PK_RSA).
Proof.
  split; [reflexivity|]. split; reflexivity.
Qed.

(** C6: for both two-attribute forward lookups, [oid_get_sig_alg] and
    [oid_get_pkcs12_pbe_alg], and every input: on success the two output
    tags are those of one and the same matching row of the table; on
    not-found both output locations hold what they held before the call. *)
Theorem dual_attribute_lookup_all_or_nothing
    (oid_macros : oid_h) (oid : asn1_buf) :
  (forall (md0 : md_type_t) (pk0 : pk_type_t),
      atomic_lookup oid_sig_alg sig_md_alg sig_pk_alg oid md0 pk0
                    (oid_get_sig_alg oid md0 pk0))
  /\ (forall (md0 : md_type_t) (cipher0 : cipher_type_t),
         atomic_lookup oid_pkcs12_pbe_alg pbe_md_alg pbe_cipher_alg
                       oid md0 cipher0
                       (oid_get_pkcs12_pbe_alg oid md0 cipher0)).
Proof.
  split; intros; apply FN_OID_GET_ATTR2_atomic; reflexivity.
Qed.

(** C9: with every stored raw OID a non-empty string, each forward lookup
    on an input of length zero returns POLARSSL_ERR_OID_NOT_FOUND and leaves
    its outputs alone; and whatever the table and the input, the row the
    matcher returns is never a sentinel. *)
Theorem zero_length_oid_not_found
    (oid_macros : oid_h) (x509_macros : x509_h)
    (t : Z) (ptr : option (list byte)) :
  registry_raw_nonempty = true ->
  let oid := {| tag := t; len := 0; p := ptr |} in
  (forall out, oid_get_attr_short_name oid out
               = Ok (POLARSSL_ERR_OID_NOT_FOUND, out))
  /\ (forall out, oid_get_x509_ext_type oid out
                  = Ok (POLARSSL_ERR_OID_NOT_FOUND, out))
  /\ (forall out, oid_get_extended_key_usage oid out
                  = Ok (POLARSSL_ERR_OID_NOT_FOUND, out))
  /\ (forall out, oid_get_sig_alg_desc oid out
                  = Ok (POLARSSL_ERR_OID_NOT_FOUND, out))
  /\ (forall out1 out2, oid_get_sig_alg oid out1 out2
                        = Ok (POLARSSL_ERR_OID_NOT_FOUND, (out1, out2)))
  /\ (forall out, oid_get_pk_alg oid out
                  = Ok (POLARSSL_ERR_OID_NOT_FOUND, out))
  /\ (forall out, oid_get_cipher_alg oid out
                  = Ok (POLARSSL_ERR_OID_NOT_FOUND, out))
  /\ (forall out, oid_get_md_alg oid out
                  = Ok (POLARSSL_ERR_OID_NOT_FOUND, out))
  /\ (forall out1 out2, oid_get_pkcs12_pbe_alg oid out1 out2
                        = Ok (POLARSSL_ERR_OID_NOT_FOUND, (out1, out2)))
  /\ (forall (E : Type) (entry : OidEntry E) (tbl : option (list E))
             (oid' : option (list byte)) (len' i : nat) (e : E),
         oid_descriptor_from_buf tbl oid' len' = Ok (Some (i, e)) ->
         ~ is_sentinel e).
Proof.
  intros Hne oid. unfold registry_raw_nonempty in Hne.
  repeat rewrite andb_true_iff in Hne.
  destruct Hne as [[[[[[[H1 H2] H3] H4] H5] H6] H7] H8].
  repeat match goal with
  | |- (forall _, _ = _) /\ _ => split
  | |- (forall _ _, _ = _) /\ _ => split
  end.
  1-9: intros; subst oid;
    unfold oid_get_attr_short_name, oid_get_x509_ext_type,
      oid_get_extended_key_usage, oid_get_sig_alg_desc, oid_get_sig_alg,
      oid_get_pk_alg, oid_get_cipher_alg, oid_get_md_alg,
      oid_get_pkcs12_pbe_alg, FN_OID_GET_ATTR1, FN_OID_GET_ATTR2,
      FN_OID_GET_DESCRIPTOR_ATTR1,
      oid_x520_attr_from_asn1, oid_x509_ext_from_asn1,
      oid_ext_key_usage_from_asn1, oid_sig_alg_from_asn1,
      oid_pk_alg_from_asn1, oid_cipher_alg_from_asn1, oid_md_alg_from_asn1,
      oid_pkcs12_pbe_alg_from_asn1;
    rewrite typed_from_asn1_empty; try reflexivity; assumption.
  intros E entry [tbl|] [oid'|] len' i e; simpl; try discriminate.
  apply descriptor_scan_not_sentinel.
Qed.

Lemma zero_length_oid_not_found_witness :
  @registry_raw_nonempty standard_oid_h standard_x509_h = true
  /\ forall out,
       @oid_get_attr_short_name standard_oid_h
         {| tag := 6; len := 0; p := Some [] |} out
       = Ok (-46, out).
Proof.
  split; [reflexivity|].
  refine (proj1 (zero_length_oid_not_found standard_oid_h standard_x509_h
                   6 (Some []) _)).
  reflexivity.
Defined.

(** C10: called with a NULL table or a NULL byte pointer, the matcher
    returns NULL whatever the table holds (an empty array included, so no
    row is read) and whatever [len] is; hence every typed forward accessor,
    given an OID buffer whose [p] is NULL, returns
    POLARSSL_ERR_OID_NOT_FOUND and leaves its outputs alone. *)
Theorem null_pointers_not_found
    (oid_macros : oid_h) (x509_macros : x509_h) (t : Z) (n : nat) :
  (forall (E : Type) (entry : OidEntry E) (oid : option (list byte))
          (len : nat),
      oid_descriptor_from_buf (E := E) None oid len = Ok None)
  /\ (forall (E : Type) (entry : OidEntry E) (tbl : option (list E))
             (len : nat),
         oid_descriptor_from_buf tbl None len = Ok None)
  /\ let oid := {| tag := t; len := n; p := None |} in
     (forall out, oid_get_attr_short_name oid out
                  = Ok (POLARSSL_ERR_OID_NOT_FOUND, out))
     /\ (forall out, oid_get_x509_ext_type oid out
                     = Ok (POLARSSL_ERR_OID_NOT_FOUND, out))
     /\ (forall out, oid_get_extended_key_usage oid out
                     = Ok (POLARSSL_ERR_OID_NOT_FOUND, out))
     /\ (forall out, oid_get_sig_alg_desc oid out
                     = Ok (POLARSSL_ERR_OID_NOT_FOUND, out))
     /\ (forall out1 out2, oid_get_sig_alg oid out1 out2
                           = Ok (POLARSSL_ERR_OID_NOT_FOUND, (out1, out2)))
     /\ (forall out, oid_get_pk_alg oid out
                     = Ok (POLARSSL_ERR_OID_NOT_FOUND, out))
     /\ (forall out, oid_get_cipher_alg oid out
                     = Ok (POLARSSL_ERR_OID_NOT_FOUND, out))
     /\ (forall out, oid_get_md_alg oid out
                     = Ok (POLARSSL_ERR_OID_NOT_FOUND, out))
     /\ (forall out1 out2, oid_get_pkcs12_pbe_alg oid out1 out2
                           = Ok (POLARSSL_ERR_OID_NOT_FOUND, (out1, out2))).
Proof.
  split; [reflexivity|]. split; [intros E entry [tbl|] len; reflexivity|].
  repeat split.
Qed.

(** ** Properties of the codec *)

(** Case analysis on the integer comparisons of the goal. *)
Ltac cmp_cases :=
  repeat match goal with
  | |- context [?a <? ?b] => destruct (Z.ltb_spec a b)
  | |- context [?a <=? ?b] => destruct (Z.leb_spec a b)
  | |- context [?a =? ?b] => destruct (Z.eqb_spec a b)
  end.

(** *** Machine integers *)

Lemma to_uint_small (w : nat) (z : Z) :
  0 <= z < 2 ^ int_bits w -> to_uint w z = z.
Proof. intros Hz. unfold to_uint. now apply Z.mod_small. Qed.

Lemma to_int_small (w : nat) (z : Z) :
  0 <= z < 2 ^ (int_bits w - 1) -> 0 < int_bits w -> to_int w z = z.
Proof.
  intros Hz Hbits. unfold to_int.
  assert (Hpow : 2 ^ int_bits w = 2 * 2 ^ (int_bits w - 1)).
  { rewrite <- Z.pow_succ_r by lia. f_equal. lia. }
  rewrite Z.mod_small by lia. lia.
Qed.

Lemma byte_val_range (b : byte) : 0 <= byte_val b < 256.
Proof.
  unfold byte_val. pose proof (Byte.to_N_bounded b). lia.
Qed.

Lemma high_bit_test (b : byte) :
  (Z.land (byte_val b) 0x80 =? 0) = negb (Z.testbit (byte_val b) 7).
Proof. destruct b; reflexivity. Qed.

Lemma low7_range (b : byte) : 0 <= Z.land (byte_val b) 0x7F < 128.
Proof.
  change 0x7F with (Z.ones 7). rewrite Z.land_ones by lia.
  apply Z.mod_pos_bound. lia.
Qed.

Lemma shift_add_lor (v x : Z) :
  0 <= x < 128 -> Z.shiftl v 7 + x = Z.lor (Z.shiftl v 7) x.
Proof.
  intros Hx. rewrite <- Z.add_lor_land.
  assert (Hland : Z.land (Z.shiftl v 7) x = 0).
  { apply Z.bits_inj'. intros n Hn. rewrite Z.land_spec, Z.bits_0.
    destruct (Z.lt_ge_cases n 7) as [Hlt | Hge].
    - rewrite Z.shiftl_spec_low by lia. reflexivity.
    - rewrite (Z.bits_above_log2 x n), andb_false_r; [reflexivity | lia |].
      destruct (Z.eq_dec x 0) as [-> | Hnz]; [simpl; lia|].
      apply Z.lt_le_trans with 7; [|exact Hge].
      apply Z.log2_lt_pow2; lia. }
  rewrite Hland. lia.
Qed.

(** *** Decimal text *)

Lemma utoa_length (f : nat) (z : Z) (acc : list ascii) :
  (length acc < length (utoa (S f) z acc) <= S f + length acc)%nat.
Proof.
  revert z acc. induction f as [|f IH]; intros z acc.
  - simpl. destruct (z <? 10); simpl; lia.
  - change (utoa (S (S f)) z acc)
      with (if z <? 10 then digit_char (z mod 10) :: acc
            else utoa (S f) (z / 10) (digit_char (z mod 10) :: acc)).
    destruct (z <? 10); [simpl; lia|].
    specialize (IH (z / 10) (digit_char (z mod 10) :: acc)).
    change (length (digit_char (z mod 10) :: acc)) with (S (length acc)) in IH.
    lia.
Qed.

Lemma fmt_d_length (z : Z) :
  0 <= z -> (1 <= length (fmt_d z) <= digits_fuel z)%nat.
Proof.
  intros Hz. unfold fmt_d. destruct (z <? 0) eqn:Hneg; [lia|].
  unfold digits_fuel.
  pose proof (utoa_length (Z.to_nat (Z.log2 z)) z []) as H.
  change (length (@nil ascii)) with 0%nat in H. lia.
Qed.

Lemma digit_val_char (d : Z) : 0 <= d < 10 -> digit_val (digit_char d) = d.
Proof.
  intros Hd. unfold digit_val, digit_char.
  rewrite nat_ascii_embedding by lia. lia.
Qed.

Lemma utoa_value (f : nat) (z : Z) (acc : list ascii) :
  0 <= z < 10 ^ Z.of_nat (S f) ->
  fold_left (fun a c => 10 * a + digit_val c) (utoa (S f) z acc) 0
  = fold_left (fun a c => 10 * a + digit_val c) acc z.
Proof.
  revert z acc. induction f as [|f IH]; intros z acc Hz.
  - change (10 ^ Z.of_nat 1) with 10 in Hz. cbn [utoa].
    destruct (Z.ltb_spec z 10); [|lia].
    cbn [fold_left]. rewrite Z.mod_small, digit_val_char by lia.
    f_equal.
  - change (utoa (S (S f)) z acc)
      with (if z <? 10 then digit_char (z mod 10) :: acc
            else utoa (S f) (z / 10) (digit_char (z mod 10) :: acc)).
    pose proof (Z.mod_pos_bound z 10 ltac:(lia)) as Hmod.
    destruct (Z.ltb_spec z 10).
    + cbn [fold_left]. rewrite Z.mod_small, digit_val_char by lia. f_equal.
    + rewrite IH.
      * cbn [fold_left]. rewrite digit_val_char by lia. f_equal.
        pose proof (Z.div_mod z 10 ltac:(lia)). lia.
      * split; [apply Z.div_pos; lia|].
        apply Z.div_lt_upper_bound; [lia|].
        rewrite <- Z.pow_succ_r by lia.
        replace (Z.succ (Z.of_nat (S f))) with (Z.of_nat (S (S f))) by lia.
        apply Hz.
Qed.

(** [fmt_d] prints the decimal numeral of its argument: only digits, and
    they read back as the number. *)
Lemma fmt_d_value (z : Z) : 0 <= z -> decimal_value (fmt_d z) = z.
Proof.
  intros Hz. unfold fmt_d, decimal_value, digits_fuel.
  destruct (Z.ltb_spec z 0); [lia|].
  rewrite utoa_value; [reflexivity|]. split; [exact Hz|].
  destruct (Z.eq_dec z 0) as [-> | Hnz]; [reflexivity|].
  replace (Z.of_nat (S (Z.to_nat (Z.log2 z)))) with (Z.succ (Z.log2 z))
    by (pose proof (Z.log2_nonneg z); lia).
  apply Z.lt_le_trans with (2 ^ Z.succ (Z.log2 z)).
  - apply Z.log2_spec. lia.
  - apply Z.pow_le_mono_l. lia.
Qed.

Lemma utoa_digits (f : nat) (z : Z) (acc : list ascii) :
  Forall is_digit acc -> Forall is_digit (utoa f z acc).
Proof.
  revert z acc. induction f as [|f IH]; intros z acc Hacc; [exact Hacc|].
  assert (Hd : is_digit (digit_char (z mod 10))).
  { exists (z mod 10). split; [apply Z.mod_pos_bound; lia | reflexivity]. }
  cbn [utoa]. destruct (z <? 10); [now constructor|].
  apply IH. now constructor.
Qed.

Lemma fmt_d_digits (z : Z) : 0 <= z -> Forall is_digit (fmt_d z).
Proof.
  intros Hz. unfold fmt_d. destruct (Z.ltb_spec z 0); [lia|].
  apply utoa_digits. constructor.
Qed.

Lemma digits_fuel_bound (z : Z) (k : nat) :
  0 <= z < 2 ^ Z.of_nat k -> (1 <= k)%nat -> (digits_fuel z <= k)%nat.
Proof.
  intros Hz Hk. unfold digits_fuel.
  destruct (Z.eq_dec z 0) as [-> | Hnz]; [simpl; lia|].
  assert (Z.log2 z < Z.of_nat k) by (apply Z.log2_lt_pow2; lia).
  pose proof (Z.log2_nonneg z). lia.
Qed.

Lemma first_piece_length (b : byte) :
  (1 <= length (first_piece b) <= 10)%nat.
Proof.
  unfold first_piece. rewrite length_app. simpl.
  pose proof (byte_val_range b) as Hb.
  assert (Hq : 0 <= byte_val b / 40 < 2 ^ Z.of_nat 3).
  { split; [apply Z.div_pos; lia|]. apply Z.div_lt_upper_bound; simpl; lia. }
  assert (Hr : 0 <= byte_val b mod 40 < 2 ^ Z.of_nat 6).
  { pose proof (Z.mod_pos_bound (byte_val b) 40). simpl. lia. }
  pose proof (fmt_d_length _ (proj1 Hq)).
  pose proof (fmt_d_length _ (proj1 Hr)).
  pose proof (digits_fuel_bound _ 3 Hq). pose proof (digits_fuel_bound _ 6 Hr).
  lia.
Qed.

(** *** Arcs *)

Lemma spec_arc_step (v : Z) (j : nat) (b : byte) :
  0 <= v < 2 ^ (7 * Z.of_nat j) ->
  let v' := Z.lor (Z.shiftl v 7) (Z.land (byte_val b) 0x7F) in
  v' = v * 128 + Z.land (byte_val b) 0x7F
  /\ 0 <= v' < 2 ^ (7 * Z.of_nat (S j)).
Proof.
  intros Hv v'. pose proof (low7_range b) as Hlow.
  assert (Heq : v' = v * 128 + Z.land (byte_val b) 0x7F).
  { unfold v'. rewrite <- shift_add_lor by exact Hlow.
    rewrite Z.shiftl_mul_pow2 by lia. reflexivity. }
  split; [exact Heq|]. rewrite Heq.
  replace (7 * Z.of_nat (S j)) with (7 * Z.of_nat j + 7) by lia.
  rewrite Z.pow_add_r by lia. change (2 ^ 7) with 128. nia.
Qed.

Lemma spec_arcs_cons (b : byte) (rest : list byte) (v : Z) :
  spec_arcs (b :: rest) v
  = if Z.testbit (byte_val b) 7
    then spec_arcs rest (Z.lor (Z.shiftl v 7) (Z.land (byte_val b) 0x7F))
    else Z.lor (Z.shiftl v 7) (Z.land (byte_val b) 0x7F) :: spec_arcs rest 0.
Proof. reflexivity. Qed.

(** The text of the arcs of [bs], the accumulator holding [j] bytes so far,
    is at most 8 characters per byte, less one for the pending ones. *)
Lemma arc_pieces_length (bs : list byte) (v : Z) (j : nat) :
  0 <= v < 2 ^ (7 * Z.of_nat j) ->
  (length (concat (map arc_piece (spec_arcs bs v)))
   <= 7 * j + 8 * length bs)%nat.
Proof.
  revert v j. induction bs as [|b rest IH]; intros v j Hv; [simpl; lia|].
  rewrite spec_arcs_cons. cbn [length].
  destruct (spec_arc_step v j b Hv) as [_ Hv']. cbv zeta in Hv'.
  destruct (Z.testbit (byte_val b) 7).
  - specialize (IH _ (S j) Hv'). lia.
  - cbn [map concat]. rewrite length_app. unfold arc_piece at 1. cbn [length].
    assert (H0 : 0 <= 0 < 2 ^ (7 * Z.of_nat 0)) by (simpl; lia).
    specialize (IH 0 0%nat H0).
    pose proof (fmt_d_length _ (proj1 Hv')) as Hlen.
    assert (Hfuel : (digits_fuel
                       (Z.lor (Z.shiftl v 7) (Z.land (byte_val b) 0x7F))
                     <= 7 * S j)%nat).
    { apply digits_fuel_bound; [|lia].
      replace (Z.of_nat (7 * S j)) with (7 * Z.of_nat (S j)) by lia.
      exact Hv'. }
    lia.
Qed.

Lemma arc_pieces_flat_map (arcs : list Z) :
  concat (map arc_piece arcs) = flat_map (fun v => "."%char :: fmt_d v) arcs.
Proof.
  induction arcs as [|a arcs IH]; [reflexivity|].
  cbn [map concat flat_map]. now rewrite IH.
Qed.

Lemma pieces_concat (bs : list byte) :
  concat (pieces bs) = spec_to_numeric_string bs.
Proof.
  destruct bs as [|b0 rest]; [reflexivity|].
  unfold spec_to_numeric_string, spec_arc_list, dotted, pieces, first_piece.
  cbn [concat flat_map]. rewrite arc_pieces_flat_map, <- app_assoc.
  reflexivity.
Qed.

Lemma numeric_string_length (bs : list byte) :
  (length (spec_to_numeric_string bs) <= 2 + 8 * length bs)%nat.
Proof.
  rewrite <- pieces_concat. destruct bs as [|b0 rest]; simpl; [lia|].
  rewrite length_app.
  pose proof (first_piece_length b0).
  assert (H0 : 0 <= 0 < 2 ^ (7 * Z.of_nat 0)) by (simpl; lia).
  pose proof (arc_pieces_length rest 0 0%nat H0). lia.
Qed.

Lemma pieces_nonempty (bs : list byte) :
  Forall (fun s => s <> []) (pieces bs).
Proof.
  destruct bs as [|b0 rest]; simpl; constructor.
  - pose proof (first_piece_length b0). destruct (first_piece b0);
      [simpl in *; lia | discriminate].
  - apply Forall_forall. intros s Hs. apply in_map_iff in Hs as (a & <- & _).
    discriminate.
Qed.

(** *** The loop and the arcs of the specification *)

Lemma nth_error_skipn_cons (bs : list byte) (i : nat) :
  (i < length bs)%nat ->
  exists b, nth_error bs i = Some b /\ skipn i bs = b :: skipn (S i) bs.
Proof.
  revert i. induction bs as [|x bs IH]; intros i Hi; simpl in Hi; [lia|].
  destruct i as [|i].
  - exists x. split; reflexivity.
  - destruct (IH i) as (b & Hb & Hskip); [lia|].
    exists b. split; [exact Hb | exact Hskip].
Qed.

Lemma bind_ext (f : flow) (k k' : cursor -> flow) :
  (forall c, k c = k' c) -> bind f k = bind f k'.
Proof. intros Hk. destruct f; simpl; [apply Hk | reflexivity | reflexivity]. Qed.

(** As long as the bytes still to read fit the accumulator, the loop neither
    wraps [value] nor prints it as a negative number: it writes the arcs of
    the specification. *)
Lemma arcs_loop_pieces (w : nat) (bs : list byte) (count i : nat)
    (v : Z) (j : nat) (c : cursor) :
  (i + count = length bs)%nat ->
  0 <= v < 2 ^ (7 * Z.of_nat j) ->
  7 * (Z.of_nat j + Z.of_nat count) < int_bits w \/ count = 0%nat ->
  arcs_loop w (oid_of_bytes bs) count i v c
  = emit_all (map arc_piece (spec_arcs (skipn i bs) v)) c.
Proof.
  revert i v j c. induction count as [|count IH]; intros i v j c Hlen Hv Hfit.
  - replace i with (length bs) by lia. rewrite skipn_all. reflexivity.
  - destruct Hfit as [Hfit | Hfit]; [|discriminate].
    destruct (nth_error_skipn_cons bs i) as (b & Hb & Hskip); [lia|].
    rewrite Hskip, spec_arcs_cons. cbn [arcs_loop].
    unfold byte_at, oid_of_bytes. cbn [p]. rewrite Hb.
    destruct (spec_arc_step v j b Hv) as [Hv' Hrange]. cbv zeta in Hv', Hrange.
    pose proof (low7_range b) as Hlow.
    assert (Hpow : 2 ^ (7 * Z.of_nat (S j)) <= 2 ^ (int_bits w - 1)).
    { apply Z.pow_le_mono_r; lia. }
    assert (Hpow' : 2 ^ (int_bits w - 1) <= 2 ^ int_bits w).
    { apply Z.pow_le_mono_r; lia. }
    assert (Hshift : to_uint w (Z.shiftl v 7) = Z.shiftl v 7).
    { apply to_uint_small. rewrite Z.shiftl_mul_pow2 by lia.
      change (2 ^ 7) with 128. lia. }
    rewrite Hshift, shift_add_lor by exact Hlow.
    rewrite to_uint_small by lia.
    rewrite high_bit_test.
    destruct (Z.testbit (byte_val b) 7); cbn [negb].
    + apply (IH (S i) _ (S j)); [lia | exact Hrange | left; lia].
    + rewrite to_int_small by lia.
      cbn [map emit_all]. unfold emit, snprintf.
      apply bind_ext. intros c2.
      apply (IH (S i) 0 0%nat); [lia | simpl; lia | left; lia].
Qed.

(** *** Stores and what they leave in memory *)

Lemma image_cons (c : ascii) (cs : list ascii) (off : Z) :
  image (c :: cs) off = if off =? 0 then Some c else image cs (off - 1).
Proof.
  unfold image. cmp_cases; try lia; try reflexivity.
  - subst off. reflexivity.
  - replace (Z.to_nat off) with (S (Z.to_nat (off - 1))) by lia.
    reflexivity.
Qed.

Lemma image_outside (cs : list ascii) (off : Z) :
  off < 0 \/ Z.of_nat (length cs) <= off -> image cs off = None.
Proof.
  intros Hout. unfold image. cmp_cases; [reflexivity|].
  apply nth_error_None. lia.
Qed.

Lemma image_inside (cs : list ascii) (off : Z) :
  image cs off <> None -> 0 <= off < Z.of_nat (length cs).
Proof.
  intros Hin. destruct (Z.lt_ge_cases off 0) as [Hneg | Hpos].
  - now rewrite image_outside in Hin by lia.
  - destruct (Z.lt_ge_cases off (Z.of_nat (length cs))) as [Hlt | Hge];
      [lia|]. now rewrite image_outside in Hin by lia.
Qed.

Lemma image_defined (cs : list ascii) (off : Z) :
  0 <= off < Z.of_nat (length cs) -> image cs off <> None.
Proof.
  intros Hin. unfold image. cmp_cases; [lia|].
  apply nth_error_Some. lia.
Qed.

Lemma image_app (a b : list ascii) (off : Z) :
  image (a ++ b) off
  = if off <? Z.of_nat (length a) then image a off
    else image b (off - Z.of_nat (length a)).
Proof.
  revert off. induction a as [|x a IH]; intros off.
  - cbn [app length]. destruct (off <? Z.of_nat 0) eqn:Hneg.
    + apply Z.ltb_lt in Hneg. rewrite !image_outside; [reflexivity | |];
        simpl; lia.
    + f_equal. simpl. lia.
  - cbn [app length]. rewrite !image_cons, IH.
    destruct (off =? 0) eqn:H0.
    + apply Z.eqb_eq in H0. subst off.
      destruct (0 <? Z.of_nat (S (length a))) eqn:H1; [reflexivity|].
      apply Z.ltb_ge in H1. lia.
    + replace (off - 1 <? Z.of_nat (length a))
        with (off <? Z.of_nat (S (length a)))
        by (destruct (Z.ltb_spec off (Z.of_nat (S (length a))));
            destruct (Z.ltb_spec (off - 1) (Z.of_nat (length a)));
            try reflexivity; lia).
      destruct (off <? Z.of_nat (S (length a))); [reflexivity|].
      f_equal. lia.
Qed.

Lemma load_from (init : option ascii) (log : list store) (off : Z) :
  fold_left
    (fun acc (st : store) => if fst st =? off then Some (snd st) else acc)
    log init
  = match load log off with Some c => Some c | None => init end.
Proof.
  unfold load. revert init. induction log as [|st log IH]; intros init;
    [reflexivity|].
  cbn [fold_left]. rewrite IH, (IH (if fst st =? off then _ else None)).
  destruct (fold_left _ log None); [reflexivity|].
  destruct (fst st =? off); reflexivity.
Qed.

Lemma load_app (l1 l2 : list store) (off : Z) :
  load (l1 ++ l2) off
  = match load l2 off with Some c => Some c | None => load l1 off end.
Proof.
  unfold load at 1. rewrite fold_left_app. apply load_from.
Qed.

Lemma load_single (o : Z) (c : ascii) (off : Z) :
  load [(o, c)] off = if off =? o then Some c else None.
Proof.
  unfold load. cbn [fold_left fst snd]. now rewrite Z.eqb_sym.
Qed.

Lemma load_put (o : Z) (cs : list ascii) (off : Z) :
  load (put o cs) off = image cs (off - o).
Proof.
  revert o. induction cs as [|c cs IH]; intros o.
  - cbn [put]. now rewrite image_outside by (simpl; lia).
  - cbn [put]. change ((o, c) :: put (o + 1) cs)
      with ([(o, c)] ++ put (o + 1) cs).
    rewrite load_app, IH, load_single, image_cons.
    replace (off - o =? 0) with (off =? o)
      by (destruct (Z.eqb_spec off o); destruct (Z.eqb_spec (off - o) 0);
          try reflexivity; lia).
    replace (off - (o + 1)) with (off - o - 1) by lia.
    destruct (off =? o) eqn:Heq; [|destruct (image cs _); reflexivity].
    apply Z.eqb_eq in Heq. subst off.
    now rewrite image_outside by lia.
Qed.

(** Every store of a log is visible to [load] at its offset. *)
Lemma load_of_store (log : list store) (o : Z) (c : ascii) :
  In (o, c) log -> load log o <> None.
Proof.
  induction log as [|st log IH] using rev_ind; [intros []|].
  intros Hin. rewrite load_app. apply in_app_or in Hin as [Hin | Hin].
  - destruct (load [st] o); [discriminate | now apply IH].
  - destruct Hin as [-> | []]. rewrite load_single, Z.eqb_refl. discriminate.
Qed.

(** *** One formatted write *)

Lemma stored_text_cons (size : Z) (text : list ascii) :
  text <> [] ->
  stored_text size text = firstn (Z.to_nat (size - 1)) text ++ [NUL].
Proof. destruct text; [congruence | reflexivity]. Qed.

Lemma stored_text_length (size : Z) (text : list ascii) :
  1 <= size -> Z.of_nat (length (stored_text size text)) <= size.
Proof.
  intros Hsize. destruct text as [|c text]; [simpl; lia|].
  rewrite stored_text_cons by discriminate.
  rewrite length_app, length_firstn. simpl length. lia.
Qed.

(** A text that already fills the buffer is stored the same way whatever
    follows it. *)
Lemma stored_text_full (size : Z) (acc s : list ascii) :
  acc <> [] -> size - 1 <= Z.of_nat (length acc) ->
  stored_text size (acc ++ s) = stored_text size acc.
Proof.
  intros Hne Hfull. rewrite !stored_text_cons; [|exact Hne|].
  - rewrite firstn_app.
    replace (Z.to_nat (size - 1) - length acc)%nat with 0%nat by lia.
    cbn [firstn]. now rewrite app_nil_r.
  - destruct acc; [congruence | discriminate].
Qed.

(** Away from the terminator, memory shows the text written so far. *)
Lemma stored_text_image (size : Z) (acc : list ascii) (off : Z) :
  Z.of_nat (length acc) <= size - 1 -> off <> Z.of_nat (length acc) ->
  image (stored_text size acc) off = image acc off.
Proof.
  intros Hfit Hoff. destruct acc as [|c acc]; [reflexivity|].
  rewrite stored_text_cons by discriminate.
  rewrite firstn_all2 by lia. rewrite image_app.
  destruct (Z.ltb_spec off (Z.of_nat (length (c :: acc)))); [reflexivity|].
  rewrite !image_outside; [reflexivity | cbn [length] in *; lia ..].
Qed.

Lemma nul_store_again (mem : list store) (o : Z) :
  load mem o = Some NUL ->
  forall off, load (mem ++ [(o, NUL)]) off = load mem off.
Proof.
  intros Ho off. rewrite load_app, load_single.
  destruct (Z.eqb_spec off o) as [-> | _]; [now rewrite Ho | reflexivity].
Qed.

(** A buffer too small for its text ends with the terminator. *)
Lemma stored_text_terminator (size : Z) (text : list ascii) :
  1 <= size -> text <> [] -> size - 1 <= Z.of_nat (length text) ->
  image (stored_text size text) (size - 1) = Some NUL.
Proof.
  intros Hsize Hne Hfull. rewrite stored_text_cons by exact Hne.
  rewrite image_app, length_firstn.
  destruct (Z.ltb_spec (size - 1)
              (Z.of_nat (Nat.min (Z.to_nat (size - 1)) (length text))));
    [lia|].
  replace (_ - _) with 0 by lia. reflexivity.
Qed.

(** [snprintf] into the room that is left: memory shows the whole text,
    cut to the buffer and terminated. *)
Lemma snprintf_image_room (size : Z) (c : cursor) (acc s : list ascii) :
  s <> [] -> cursor_after size c acc -> 0 < cur_n c ->
  forall off,
    load (cur_mem (snd (snprintf c s))) off
    = image (stored_text size (acc ++ s)) off.
Proof.
  intros Hs (Hp & Hn & Hle & Hload) Hroom off.
  unfold snprintf. cbn [snd cur_mem].
  destruct (Z.leb_spec (cur_n c) 0) as [Hn0 | _]; [lia|].
  set (F := firstn (Z.to_nat (cur_n c - 1)) s).
  assert (HF : firstn (Z.to_nat (size - 1)) (acc ++ s) = acc ++ F).
  { rewrite firstn_app, firstn_all2 by lia. unfold F. do 2 f_equal. lia. }
  rewrite stored_text_cons, HF
    by (destruct acc; [exact Hs | discriminate]).
  rewrite !load_app, load_single, load_put, Hload, Hp.
  rewrite !image_app, length_app.
  destruct (Z.eqb_spec off (Z.of_nat (length acc) + Z.of_nat (length F)))
    as [-> | Hne].
  - destruct (Z.ltb_spec (Z.of_nat (length acc) + Z.of_nat (length F))
                         (Z.of_nat (length acc + length F))); [lia|].
    replace (_ - _) with 0 by lia. reflexivity.
  - destruct (Z.ltb_spec off (Z.of_nat (length acc + length F))) as [Hlt | Hge].
    + destruct (Z.ltb_spec off (Z.of_nat (length acc))) as [Hlt' | Hge'].
      * rewrite (image_outside F) by lia.
        apply stored_text_image; lia.
      * destruct (image F (off - Z.of_nat (length acc))) eqn:HF'; [reflexivity|].
        exfalso. apply (image_defined F (off - Z.of_nat (length acc)));
          [lia | exact HF'].
    + rewrite (image_outside F) by lia.
      rewrite stored_text_image by lia.
      rewrite !image_outside; [reflexivity | cbn [length] in *; lia ..].
Qed.

Lemma snprintf_image (size : Z) (c : cursor) (acc s : list ascii) :
  1 <= size -> s <> [] -> cursor_after size c acc ->
  forall off,
    load (cur_mem (snd (snprintf c s))) off
    = image (stored_text size (acc ++ s)) off.
Proof.
  intros Hsize Hs Hc off.
  destruct (Z.lt_ge_cases 0 (cur_n c)) as [Hroom | Hfull].
  - now apply snprintf_image_room.
  - destruct Hc as (Hp & Hn & Hle & Hload).
    unfold snprintf. cbn [snd cur_mem].
    destruct (Z.leb_spec (cur_n c) 0); [|lia].
    rewrite app_nil_r, Hload.
    rewrite stored_text_full; [reflexivity | | lia].
    destruct acc; [simpl in *; lia | discriminate].
Qed.

(** One [snprintf] and SAFE_SNPRINTF, in a buffer of at least one byte:
    either the text fits (with or without its terminator) and the loop goes
    on, or the macro returns the error; in both cases memory holds the text
    written so far, cut to the buffer and terminated. *)
Lemma emit_spec (size : Z) (c : cursor) (acc s : list ascii) :
  1 <= size -> s <> [] -> cursor_after size c acc ->
  match emit c s with
  | Next c' => cursor_after size c' (acc ++ s)
  | Return r mem =>
      r = POLARSSL_ERR_DEBUG_BUF_TOO_SMALL
      /\ size < Z.of_nat (length (acc ++ s))
      /\ forall off, load mem off = image (stored_text size (acc ++ s)) off
  | Crash => False
  end.
Proof.
  intros Hsize Hs Hc.
  pose proof (snprintf_image size c acc s Hsize Hs Hc) as Himg.
  destruct Hc as (Hp & Hn & Hle & Hload).
  assert (Hlen : (1 <= length s)%nat)
    by (destruct s; [congruence | simpl; lia]).
  unfold emit. rewrite (surjective_pairing (snprintf c s)).
  unfold SAFE_SNPRINTF.
  change (fst (snprintf c s)) with (Z.of_nat (length s)).
  change (cur_p (snd (snprintf c s))) with (cur_p c).
  change (cur_n (snd (snprintf c s))) with (cur_n c).
  destruct (Z.eqb_spec (Z.of_nat (length s)) (-1)); [lia|].
  rewrite Z.gtb_ltb.
  destruct (Z.ltb_spec (cur_n c) (Z.of_nat (length s))) as [Hbig | Hfits].
  - split; [reflexivity|]. split; [rewrite length_app; lia|].
    intros off. rewrite nul_store_again; [apply Himg|].
    rewrite Himg. replace (cur_p c + (cur_n c - 1)) with (size - 1) by lia.
    apply stored_text_terminator; [exact Hsize | |rewrite length_app; lia].
    destruct acc; [exact Hs | discriminate].
  - unfold cursor_after. cbn [cur_p cur_n cur_mem]. rewrite length_app.
    split; [lia|]. split; [lia|]. split; [lia | exact Himg].
Qed.

(** The same for a sequence of formatted writes. *)
Lemma emit_all_spec (size : Z) (ps : list (list ascii)) (c : cursor)
    (acc : list ascii) :
  1 <= size -> Forall (fun s => s <> []) ps -> cursor_after size c acc ->
  match emit_all ps c with
  | Next c' => cursor_after size c' (acc ++ concat ps)
  | Return r mem =>
      r = POLARSSL_ERR_DEBUG_BUF_TOO_SMALL
      /\ size < Z.of_nat (length (acc ++ concat ps))
      /\ forall off,
           load mem off = image (stored_text size (acc ++ concat ps)) off
  | Crash => False
  end.
Proof.
  intros Hsize Hps. revert c acc.
  induction Hps as [|s rest Hs Hrest IH]; intros c acc Hc.
  - cbn [emit_all concat]. now rewrite app_nil_r.
  - cbn [emit_all concat]. rewrite app_assoc.
    pose proof (emit_spec size c acc s Hsize Hs Hc) as Hstep.
    destruct (emit c s) as [c1 | r mem |]; cbn [bind].
    + now apply IH.
    + destruct Hstep as (Hr & Hlong & Hmem).
      split; [exact Hr|]. split; [rewrite length_app; lia|].
      intros off. rewrite stored_text_full; [apply Hmem | | lia].
      destruct acc; [exact Hs | discriminate].
    + exact Hstep.
Qed.

(** *** The whole function *)

Lemma to_int_0 (w : nat) : to_int w 0 = 0.
Proof.
  unfold to_int. destruct w as [|w]; [reflexivity|].
  assert (Hbits : 0 < int_bits (S w)) by (unfold int_bits; lia).
  assert (Hpow : 2 ^ int_bits (S w) = 2 * 2 ^ (int_bits (S w) - 1)).
  { rewrite <- Z.pow_succ_r by lia. f_equal. lia. }
  assert (0 < 2 ^ (int_bits (S w) - 1)) by (apply Z.pow_pos_nonneg; lia).
  rewrite Z.mod_small by lia. lia.
Qed.

(** The longest rendering of [w] bytes is far below INT_MAX. *)
Lemma rendering_fits_int (w : nat) :
  (1 <= w)%nat -> 2 + 8 * Z.of_nat w < 2 ^ (int_bits w - 1).
Proof.
  unfold int_bits. induction w as [|w IH]; [lia|]. intros _.
  destruct w as [|w]; [reflexivity|].
  replace (8 * Z.of_nat (S (S w)) - 1) with (8 + (8 * Z.of_nat (S w) - 1))
    by lia.
  rewrite Z.pow_add_r by lia. change (2 ^ 8) with 256.
  specialize (IH ltac:(lia)). lia.
Qed.

Lemma cursor_at_start (size : Z) :
  0 <= size ->
  cursor_after size {| cur_p := 0; cur_n := size; cur_mem := [] |} [].
Proof.
  intros Hsize. unfold cursor_after. cbn [cur_p cur_n cur_mem length].
  split; [reflexivity|]. split; [lia|]. split; [lia|].
  intros off. now rewrite image_outside by (simpl; lia).
Qed.

(** The function as a sequence of formatted writes. *)
Lemma oid_get_numeric_string_run (w : nat) (size : Z) (b0 : byte)
    (rest : list byte) :
  oid_get_numeric_string w size (oid_of_bytes (b0 :: rest))
  = match emit {| cur_p := 0; cur_n := size; cur_mem := [] |}
               (first_piece b0) with
    | Next c1 =>
        if (w <? S (length rest))%nat
        then Returned POLARSSL_ERR_DEBUG_BUF_TOO_SMALL (cur_mem c1)
        else match emit_all (map arc_piece (spec_arcs rest 0)) c1 with
             | Next c2 => Returned (to_int w (size - cur_n c2)) (cur_mem c2)
             | Return r mem => Returned r mem
             | Crash => Crashed
             end
    | Return r mem => Returned r mem
    | Crash => Crashed
    end.
Proof.
  unfold oid_get_numeric_string, first_arcs.
  change (len (oid_of_bytes (b0 :: rest))) with (S (length rest)).
  change (byte_at (oid_of_bytes (b0 :: rest)) 0) with (Some b0).
  change (0 <? S (length rest))%nat with true. cbv iota.
  change (let (ret, c1) := snprintf {| cur_p := 0; cur_n := size; cur_mem := [] |}
                             (fmt_d (byte_val b0 / 40)
                              ++ "."%char :: fmt_d (byte_val b0 mod 40)) in
          SAFE_SNPRINTF ret c1)
    with (emit {| cur_p := 0; cur_n := size; cur_mem := [] |} (first_piece b0)).
  destruct (emit _ (first_piece b0)) as [c1 | r mem |]; cbn [bind];
    try reflexivity.
  destruct (Nat.ltb_spec w (S (length rest))) as [Hlong | Hfits];
    [reflexivity|].
  replace (S (length rest) - 1)%nat with (length rest) by lia.
  rewrite (arcs_loop_pieces w (b0 :: rest) (length rest) 1 0 0).
  - cbn [skipn].
    destruct (emit_all (map arc_piece (spec_arcs rest 0)) c1); reflexivity.
  - reflexivity.
  - simpl. lia.
  - left. unfold int_bits. lia.
Qed.

Lemma first_piece_nonempty (b : byte) : first_piece b <> [].
Proof.
  pose proof (first_piece_length b). destruct (first_piece b);
    [simpl in *; lia | discriminate].
Qed.

(** What [oid_get_numeric_string] does on a non-empty OID in a buffer of at
    least one byte.  When the OID is longer than [sizeof(value)] it returns
    the error, the first two arcs in the buffer.  Otherwise it returns the
    length of the rendering if that is at most [size], the error if not;
    the buffer holds the rendering, cut to [size - 1] characters, and a
    terminator; nothing else is stored. *)
Lemma oid_get_numeric_string_spec (w : nat) (size : Z) (b0 : byte)
    (rest : list byte) :
  1 <= size ->
  let bs := b0 :: rest in
  exists mem,
    oid_get_numeric_string w size (oid_of_bytes bs)
    = Returned
        (if (w <? length bs)%nat then POLARSSL_ERR_DEBUG_BUF_TOO_SMALL
         else if Z.of_nat (length (spec_to_numeric_string bs)) <=? size
              then Z.of_nat (length (spec_to_numeric_string bs))
              else POLARSSL_ERR_DEBUG_BUF_TOO_SMALL)
        mem
    /\ forall off,
         load mem off
         = image (stored_text size
                    (if (w <? length bs)%nat then first_piece b0
                     else spec_to_numeric_string bs)) off.
Proof.
  intros Hsize bs. subst bs. rewrite oid_get_numeric_string_run.
  pose proof (cursor_at_start size ltac:(lia)) as Hstart.
  cbn [length].
  destruct (Nat.ltb_spec w (S (length rest))) as [Hlong | Hfits].
  - pose proof (emit_spec size _ [] (first_piece b0) Hsize
                  (first_piece_nonempty b0) Hstart) as Hstep.
    cbn [app] in Hstep.
    destruct (emit _ (first_piece b0)) as [c1 | r mem |].
    + exists (cur_mem c1). split; [reflexivity | apply Hstep].
    + destruct Hstep as (-> & _ & Hmem). exists mem.
      split; [reflexivity | exact Hmem].
    + contradiction.
  - pose proof (emit_all_spec size (pieces (b0 :: rest)) _ [] Hsize
                  (pieces_nonempty (b0 :: rest)) Hstart) as Hall.
    rewrite pieces_concat in Hall. cbn [app pieces emit_all] in Hall.
    pose proof (numeric_string_length (b0 :: rest)) as Hbound.
    cbn [length] in Hbound.
    pose proof (rendering_fits_int w ltac:(lia)) as Hint.
    destruct (emit _ (first_piece b0)) as [c1 | r mem |]; cbn [bind] in Hall.
    + destruct (emit_all _ c1) as [c2 | r mem |].
      * destruct Hall as (Hp & Hn & Hle & Hmem).
        exists (cur_mem c2). split; [|exact Hmem].
        destruct (Z.leb_spec
                    (Z.of_nat (length (spec_to_numeric_string (b0 :: rest))))
                    size); [|lia].
        rewrite Hn. f_equal.
        replace (size - (size - _)) with
          (Z.of_nat (length (spec_to_numeric_string (b0 :: rest)))) by lia.
        apply to_int_small; unfold int_bits in *; lia.
      * destruct Hall as (-> & Hlong & Hmem). exists mem. split; [|exact Hmem].
        destruct (Z.leb_spec
                    (Z.of_nat (length (spec_to_numeric_string (b0 :: rest))))
                    size); [lia | reflexivity].
      * contradiction.
    + destruct Hall as (-> & Hlong & Hmem). exists mem. split; [|exact Hmem].
      destruct (Z.leb_spec
                  (Z.of_nat (length (spec_to_numeric_string (b0 :: rest))))
                  size); [lia | reflexivity].
    + contradiction.
Qed.

(** With no room at all, the only store is the terminator of
    SAFE_SNPRINTF, one byte before the buffer. *)
Lemma oid_get_numeric_string_no_room (w : nat) (size : Z) (b0 : byte)
    (rest : list byte) :
  size <= 0 ->
  oid_get_numeric_string w size (oid_of_bytes (b0 :: rest))
  = Returned POLARSSL_ERR_DEBUG_BUF_TOO_SMALL [(size - 1, NUL)].
Proof.
  intros Hsize. rewrite oid_get_numeric_string_run.
  pose proof (first_piece_length b0) as Hlen.
  unfold emit, snprintf, SAFE_SNPRINTF. cbn [cur_p cur_n cur_mem].
  destruct (Z.eqb_spec (Z.of_nat (length (first_piece b0))) (-1)); [lia|].
  rewrite Z.gtb_ltb.
  destruct (Z.ltb_spec size (Z.of_nat (length (first_piece b0)))); [|lia].
  destruct (Z.leb_spec size 0); [reflexivity | lia].
Qed.

Lemma numeric_string_nonempty (b0 : byte) (rest : list byte) :
  spec_to_numeric_string (b0 :: rest) <> [].
Proof.
  rewrite <- pieces_concat. cbn [pieces concat].
  pose proof (first_piece_nonempty b0). destruct (first_piece b0);
    [congruence | discriminate].
Qed.

Lemma oid_get_numeric_string_nil (w : nat) (size t : Z)
    (ptr : option (list byte)) :
  oid_get_numeric_string w size {| tag := t; len := 0; p := ptr |}
  = Returned 0 [].
Proof.
  unfold oid_get_numeric_string, first_arcs. cbn [len Nat.ltb Nat.leb bind].
  cbn [Nat.sub arcs_loop bind cur_n cur_mem].
  now rewrite Z.sub_diag, to_int_0.
Qed.

(** The tag of the buffer is never read. *)
Lemma arcs_loop_tag_irrelevant (w : nat) (t t' : Z) (n : nat)
    (ptr : option (list byte)) (count i : nat) (v : Z) (c : cursor) :
  arcs_loop w {| tag := t; len := n; p := ptr |} count i v c
  = arcs_loop w {| tag := t'; len := n; p := ptr |} count i v c.
Proof.
  revert i v c. induction count as [|count IH]; intros i v c; [reflexivity|].
  cbn [arcs_loop]. unfold byte_at. cbn [p].
  destruct ptr as [bs|]; [|reflexivity].
  destruct (nth_error bs i) as [b|]; [|reflexivity].
  destruct (Z.land (byte_val b) 128 =? 0); [|apply IH].
  destruct (snprintf c _) as [ret c1]. apply bind_ext. intros c2. apply IH.
Qed.

Lemma oid_get_numeric_string_tag_irrelevant (w : nat) (size t t' : Z)
    (n : nat) (ptr : option (list byte)) :
  oid_get_numeric_string w size {| tag := t; len := n; p := ptr |}
  = oid_get_numeric_string w size {| tag := t'; len := n; p := ptr |}.
Proof.
  unfold oid_get_numeric_string, first_arcs, byte_at. cbn [len p].
  erewrite bind_ext; [reflexivity|]. intros c1. cbv beta.
  destruct (w <? n)%nat; [reflexivity|].
  now rewrite (arcs_loop_tag_irrelevant w t t').
Qed.

(** In a buffer of at least one byte every store is inside the buffer. *)
Lemma oid_get_numeric_string_in_bounds (w : nat) (size : Z) (bs : list byte)
    (r : Z) (mem : list store) :
  1 <= size ->
  oid_get_numeric_string w size (oid_of_bytes bs) = Returned r mem ->
  Forall (in_bounds size) mem.
Proof.
  intros Hsize Hrun. destruct bs as [|b0 rest].
  - unfold oid_get_numeric_string in Hrun. cbn in Hrun.
    injection Hrun as _ <-. constructor.
  - destruct (oid_get_numeric_string_spec w size b0 rest Hsize)
      as (mem' & Hrun' & Hmem).
    rewrite Hrun' in Hrun. injection Hrun as _ ->.
    apply Forall_forall. intros [o c] Hin. unfold in_bounds. cbn [fst].
    pose proof (load_of_store mem o c Hin) as Hload. rewrite Hmem in Hload.
    apply image_inside in Hload.
    pose proof (stored_text_length size
                  (if (w <? length (b0 :: rest))%nat then first_piece b0
                   else spec_to_numeric_string (b0 :: rest)) Hsize).
    lia.
Qed.

(** *** The codec on sample inputs *)

Example fmt_d_samples :
  fmt_d 0 = chars "0" /\ fmt_d 7 = chars "7" /\ fmt_d 10 = chars "10"
  /\ fmt_d 840 = chars "840" /\ fmt_d 113549 = chars "113549"
  /\ fmt_d (-1) = chars "-1" /\ fmt_d 2147483647 = chars "2147483647".
Proof. repeat split; reflexivity. Qed.

Example spec_to_numeric_string_samples :
  spec_to_numeric_string rsaEncryption = chars "1.2.840.113549.1.1.1"
  /\ spec_to_numeric_string id_at_commonName = chars "2.5.4.3"
  /\ spec_to_numeric_string [] = [].
Proof. repeat split; reflexivity. Qed.

(** A buffer of exactly as many bytes as the rendering has characters: the
    call returns that count, and the buffer holds one character less. *)
Example exact_fit_drops_last_character :
  oid_get_numeric_string 4 7 (oid_of_bytes id_at_commonName)
  = Returned 7 (stores_of (oid_get_numeric_string 4 7
                             (oid_of_bytes id_at_commonName)))
  /\ buffer_after (stores_of (oid_get_numeric_string 4 7
                                (oid_of_bytes id_at_commonName)))
                   (chars "#######")
     = chars "2.5.4." ++ [NUL].
Proof. split; vm_compute; reflexivity. Qed.

(** *** The claims about the codec *)

(** C1, as stated, fails: with a 4-byte [unsigned int] and a 64-byte buffer
    the call on rsaEncryption returns the error
    POLARSSL_ERR_DEBUG_BUF_TOO_SMALL, after writing "1.2" only. *)
Lemma rsaEncryption_not_rendered :
  oid_get_numeric_string 4 64 (oid_of_bytes rsaEncryption)
  = Returned POLARSSL_ERR_DEBUG_BUF_TOO_SMALL
             (put 0 (chars "1.2") ++ [(3, NUL)])
  /\ ~ (exists r mem,
           oid_get_numeric_string 4 64 (oid_of_bytes rsaEncryption)
           = Returned r mem /\ 0 <= r).
Proof.
  split; [vm_compute; reflexivity|].
  intros (r & mem & Hrun & Hr). vm_compute in Hrun.
  injection Hrun as <- _. lia.
Qed.

(** C1, amended: on the 9-byte OID of rsaEncryption, with a buffer of at
    least 21 bytes, the call returns POLARSSL_ERR_DEBUG_BUF_TOO_SMALL and
    leaves "1.2" in the buffer when [unsigned int] has fewer than 9 bytes;
    when it has 9 bytes or more the call returns 20 and the buffer holds
    exactly "1.2.840.113549.1.1.1", terminated. *)
Theorem rsaEncryption_numeric_string (w : nat) (size : Z) :
  21 <= size ->
  exists mem,
    oid_get_numeric_string w size (oid_of_bytes rsaEncryption)
    = Returned (if (w <? 9)%nat then POLARSSL_ERR_DEBUG_BUF_TOO_SMALL else 20)
               mem
    /\ forall off,
         load mem off
         = image (chars (if (w <? 9)%nat then "1.2"
                         else "1.2.840.113549.1.1.1") ++ [NUL]) off.
Proof.
  intros Hsize.
  destruct (oid_get_numeric_string_spec w size x2a (List.tl rsaEncryption))
    as (mem & Hrun & Hmem); [lia|].
  change (x2a :: List.tl rsaEncryption) with rsaEncryption in *.
  change (length rsaEncryption) with 9%nat in *.
  change (spec_to_numeric_string rsaEncryption)
    with (chars "1.2.840.113549.1.1.1") in *.
  change (first_piece x2a) with (chars "1.2") in *.
  exists mem. destruct (w <? 9)%nat.
  - split; [exact Hrun|]. intros off. rewrite Hmem.
    rewrite stored_text_cons by discriminate.
    now rewrite firstn_all2 by (simpl length; lia).
  - change (Z.of_nat (length (chars "1.2.840.113549.1.1.1"))) with 20 in Hrun.
    destruct (Z.leb_spec 20 size); [|lia]. split; [exact Hrun|].
    intros off. rewrite Hmem.
    rewrite stored_text_cons by discriminate.
    now rewrite firstn_all2 by (simpl length; lia).
Qed.

Lemma rsaEncryption_numeric_string_witness :
  exists mem,
    oid_get_numeric_string 4 64 (oid_of_bytes rsaEncryption)
    = Returned POLARSSL_ERR_DEBUG_BUF_TOO_SMALL mem
    /\ forall off, load mem off = image (chars "1.2" ++ [NUL]) off.
Proof.
  apply (rsaEncryption_numeric_string 4 64). lia.
Defined.

(** C2, at the failing input: for id-at-commonName and a buffer of size 0,
    SAFE_SNPRINTF stores its terminator at offset -1, outside the buffer. *)
Theorem oid_get_numeric_string_size_zero_stores_before_buffer :
  oid_get_numeric_string 4 0 (oid_of_bytes id_at_commonName)
  = Returned POLARSSL_ERR_DEBUG_BUF_TOO_SMALL [(-1, NUL)]
  /\ ~ in_bounds 0 (-1, NUL).
Proof.
  split; [vm_compute; reflexivity|]. unfold in_bounds. cbn [fst]. lia.
Qed.

(** C3: an OID of more bytes than [sizeof(value)] makes the call return
    POLARSSL_ERR_DEBUG_BUF_TOO_SMALL; no arc beyond the first two is
    accumulated or written: a buffer of at least one byte holds the text of
    the first byte only, cut to the buffer. *)
Theorem oid_longer_than_accumulator_rejected (w : nat) (size : Z)
    (bs : list byte) :
  (w < length bs)%nat ->
  exists mem,
    oid_get_numeric_string w size (oid_of_bytes bs)
    = Returned POLARSSL_ERR_DEBUG_BUF_TOO_SMALL mem
    /\ (1 <= size ->
        forall off,
          load mem off
          = image (stored_text size
                     (match bs with
                      | [] => []
                      | b0 :: _ => first_piece b0
                      end)) off).
Proof.
  intros Hlong. destruct bs as [|b0 rest]; [simpl in Hlong; lia|].
  destruct (Z.lt_ge_cases size 1) as [Hsmall | Hsize].
  - exists [(size - 1, NUL)].
    split; [apply oid_get_numeric_string_no_room|]; lia.
  - destruct (oid_get_numeric_string_spec w size b0 rest Hsize)
      as (mem & Hrun & Hmem).
    destruct (Nat.ltb_spec w (length (b0 :: rest))); [|lia].
    exists mem. split; [exact Hrun|]. intros _. exact Hmem.
Qed.

Lemma oid_longer_than_accumulator_rejected_witness :
  exists mem,
    oid_get_numeric_string 4 64 (oid_of_bytes rsaEncryption)
    = Returned POLARSSL_ERR_DEBUG_BUF_TOO_SMALL mem
    /\ (1 <= 64 ->
        forall off,
          load mem off = image (stored_text 64 (first_piece x2a)) off).
Proof.
  apply (oid_longer_than_accumulator_rejected 4 64 rsaEncryption).
  simpl. lia.
Defined.

(** C7: every call on a well-formed OID buffer returns, and whenever it
    succeeds (returns no negative code) the value returned is the number of
    characters of the dotted-decimal rendering, terminator not counted; when
    the buffer has room for the terminator as well, it holds exactly that
    rendering followed by the terminator (nothing at all for the empty
    OID).  The call does succeed when the OID has at most [sizeof(value)]
    bytes and the rendering at most [size] characters. *)
Theorem oid_get_numeric_string_returns_length (w : nat) (size : Z)
    (bs : list byte) :
  exists r mem,
    oid_get_numeric_string w size (oid_of_bytes bs) = Returned r mem
    /\ (0 <= r ->
        r = Z.of_nat (length (spec_to_numeric_string bs))
        /\ (r < size ->
            forall off,
              load mem off
              = image (match bs with
                       | [] => []
                       | _ => spec_to_numeric_string bs ++ [NUL]
                       end) off))
    /\ ((length bs <= w)%nat ->
        Z.of_nat (length (spec_to_numeric_string bs)) <= size ->
        0 <= r).
Proof.
  destruct bs as [|b0 rest].
  - exists 0, []. unfold oid_of_bytes. cbn [length].
    split; [apply oid_get_numeric_string_nil|]. split; [|lia].
    intros _. split; [reflexivity|]. intros _ off.
    now rewrite image_outside by (simpl; lia).
  - pose proof (numeric_string_nonempty b0 rest) as Hne.
    destruct (Z.lt_ge_cases size 1) as [Hsmall | Hsize].
    + exists POLARSSL_ERR_DEBUG_BUF_TOO_SMALL, [(size - 1, NUL)].
      split; [apply oid_get_numeric_string_no_room; lia|].
      unfold POLARSSL_ERR_DEBUG_BUF_TOO_SMALL. split; [lia|].
      intros _ Hfit. destruct (spec_to_numeric_string (b0 :: rest));
        [congruence | simpl length in Hfit; lia].
    + destruct (oid_get_numeric_string_spec w size b0 rest Hsize)
        as (mem & Hrun & Hmem).
      eexists; exists mem. split; [exact Hrun|].
      unfold POLARSSL_ERR_DEBUG_BUF_TOO_SMALL.
      destruct (Nat.ltb_spec w (length (b0 :: rest))) as [Hlong | Hshort].
      * split; [lia|]. intros Hw. lia.
      * destruct (Z.leb_spec
                    (Z.of_nat (length (spec_to_numeric_string (b0 :: rest))))
                    size) as [Hfit | Hbig].
        -- split; [|lia]. intros _. split; [reflexivity|].
           intros Hroom off. rewrite Hmem.
           rewrite stored_text_cons by exact Hne.
           now rewrite firstn_all2 by lia.
        -- split; [lia|]. intros _ Hfit. lia.
Qed.

(** On id-at-commonName with a 16-byte buffer the call returns 7, the
    length of "2.5.4.3". *)
Example oid_get_numeric_string_commonName :
  oid_get_numeric_string 4 16 (oid_of_bytes id_at_commonName)
  = Returned 7 (put 0 (chars "2.5") ++ [(3, NUL)]
                ++ put 3 (chars ".4") ++ [(5, NUL)]
                ++ put 5 (chars ".3") ++ [(7, NUL)])
  /\ buffer_after (stores_of (oid_get_numeric_string 4 16
                                (oid_of_bytes id_at_commonName)))
                   (chars "################")
     = chars "2.5.4.3" ++ [NUL] ++ chars "########".
Proof. split; vm_compute; reflexivity. Qed.

(** C8: on an OID of length zero the call succeeds: it returns 0 and
    stores nothing, whatever the buffer size, the width of
    [unsigned int] and the pointer of the OID. *)
Theorem oid_get_numeric_string_zero_length (w : nat) (size t : Z)
    (ptr : option (list byte)) :
  oid_get_numeric_string w size {| tag := t; len := 0; p := ptr |}
  = Returned 0 [].
Proof. apply oid_get_numeric_string_nil. Qed.

(** ** Further properties of the registry *)

Section MoreMatcher.

Context {E : Type} {entry : OidEntry E}.

Lemma raw_matches_self (e : E) (raw : list byte) :
  asn1 (descriptor_of e) = Some raw ->
  raw_matches e (c_str raw) (strlen raw).
Proof.
  intros Hraw. exists raw. split; [exact Hraw|]. split; [reflexivity|].
  unfold strlen. now rewrite firstn_all.
Qed.

Lemma raw_matches_same_raw (a b : E) (raw : list byte) :
  asn1 (descriptor_of b) = Some raw ->
  raw_matches a (c_str raw) (strlen raw) -> same_raw a b = true.
Proof.
  intros Hb (rawa & Ha & _ & Heq). unfold same_raw. rewrite Ha, Hb.
  apply bytes_eqb_eq. rewrite Heq. unfold strlen. apply firstn_all.
Qed.

Lemma raw_distinct_upto_pair (eqv : E -> E -> bool) (rows : list E)
    (k i : nat) (a b : E) :
  raw_distinct_upto eqv rows = true -> (k < i)%nat ->
  nth_error rows k = Some a -> nth_error rows i = Some b ->
  same_raw a b = true -> eqv a b = true.
Proof.
  revert k i. induction rows as [|cur rest IH]; intros k i Hd Hki Hk Hi Hsame.
  - destruct k; discriminate.
  - cbn [raw_distinct_upto] in Hd. apply andb_true_iff in Hd as [Hcur Hrest].
    destruct i as [|i]; [lia|]. cbn [nth_error] in Hi.
    destruct k as [|k]; cbn [nth_error] in Hk.
    + injection Hk as ->. rewrite forallb_forall in Hcur.
      specialize (Hcur b (nth_error_In _ _ Hi)).
      rewrite Hsame in Hcur. exact Hcur.
    + apply (IH k i); [exact Hrest | lia | exact Hk | exact Hi | exact Hsame].
Qed.

(** Looking up the raw OID of a row of a well-terminated table finds that
    row, or an earlier one with the same raw OID. *)
Lemma descriptor_scan_known_row (eqv : E -> E -> bool) (rows : list E)
    (i : nat) (e : E) (raw : list byte) :
  sentinel_last rows = true -> raw_distinct_upto eqv rows = true ->
  nth_error rows i = Some e -> asn1 (descriptor_of e) = Some raw ->
  exists j e',
    descriptor_scan rows 0 (c_str raw) (strlen raw) = Ok (Some (j, e'))
    /\ nth_error rows j = Some e'
    /\ ((j = i /\ e' = e) \/ eqv e' e = true).
Proof.
  intros Hlast Hd Hi Hraw.
  pose proof (raw_matches_self e raw Hraw) as Hself.
  pose proof (descriptor_scan_spec rows 0 (c_str raw) (strlen raw)) as Hspec.
  assert (Hnot : forall k, skipped rows k (c_str raw) (strlen raw) ->
                           (k <= i)%nat).
  { intros k Hskip. destruct (Nat.le_gt_cases k i) as [Hle | Hgt];
      [exact Hle|]. destruct (Hskip i e Hgt Hi) as [_ Hno]. contradiction. }
  assert (Hilt : (i < length rows)%nat) by (apply nth_error_Some; congruence).
  destruct (descriptor_scan rows 0 (c_str raw) (strlen raw))
    as [[[j e']|]|].
  - destruct Hspec as (k & -> & Hk & Hm & Hskip). cbn [Nat.add].
    exists k, e'. split; [reflexivity|]. split; [exact Hk|].
    pose proof (Hnot k Hskip) as Hle.
    destruct (Nat.eq_dec k i) as [-> | Hne].
    + left. split; [reflexivity|]. congruence.
    + right. apply (raw_distinct_upto_pair eqv rows k i);
        [exact Hd | lia | exact Hk | exact Hi |].
      now apply (raw_matches_same_raw e' e raw).
  - exfalso. destruct Hspec as (k & s & Hk & Hs & Hskip).
    pose proof (sentinel_last_position rows k s Hlast Hk Hs) as Hpos.
    pose proof (Hnot k Hskip) as Hle.
    assert (k = i) by lia. subst k. rewrite Hk in Hi. injection Hi as ->.
    unfold is_sentinel in Hs. congruence.
  - exfalso. destruct Hspec as [Hskip | Hshort].
    + pose proof (Hnot _ Hskip). lia.
    + unfold strlen in Hshort. lia.
Qed.

End MoreMatcher.

Section MoreAccessors.

Context {oid_macros : oid_h} {x509_macros : x509_h}.

Lemma FN_OID_GET_ATTR1_single {E A : Type} `{OidEntry E}
    (LIST : list E) (ATTR1 : E -> A) (oid : asn1_buf) (out1 : A) :
  sentinel_last LIST = true ->
  single_lookup LIST ATTR1 oid out1
    (FN_OID_GET_ATTR1 (FN_OID_TYPED_FROM_ASN1 LIST) ATTR1 oid out1).
Proof.
  intros Hlast.
  unfold single_lookup, FN_OID_GET_ATTR1, FN_OID_TYPED_FROM_ASN1,
    oid_descriptor_from_buf.
  destruct (p oid) as [bytes|].
  - pose proof (descriptor_scan_spec LIST 0 bytes (len oid)) as Hspec.
    destruct (descriptor_scan LIST 0 bytes (len oid)) as [[[i e]|]|].
    + left. destruct Hspec as (k & -> & Hk & Hm & Hskip).
      exists k, e, bytes. cbn [Nat.add]. auto.
    + right; left. split; [reflexivity|].
      destruct Hspec as (k & s & Hk & Hs & Hskip).
      intros bytes' e [= <-]. now apply (skipped_all_no_match LIST k s).
    + right; right. split; [reflexivity|]. exists bytes.
      split; [reflexivity|].
      destruct Hspec as [Hskip | Hshort]; [|exact Hshort].
      destruct (sentinel_last_exists LIST Hlast) as (k & s & Hk & Hs).
      exfalso. destruct (Hskip k s) as [Hns _]; [|exact Hk|now apply Hns].
      apply nth_error_Some. congruence.
  - right; left. split; [reflexivity|]. intros bytes e Hp. discriminate.
Qed.

(** Forward lookup of the raw OID of a row: the row's attribute comes
    back, when rows with one raw OID agree on the attribute. *)
Lemma FN_OID_GET_ATTR1_known_row {E A : Type} `{OidEntry E}
    (eqv : E -> E -> bool) (LIST : list E) (ATTR1 : E -> A)
    (i : nat) (e : E) (raw : list byte) (out1 : A) :
  sentinel_last LIST = true -> raw_distinct_upto eqv LIST = true ->
  (forall a b, eqv a b = true -> ATTR1 a = ATTR1 b) ->
  nth_error LIST i = Some e -> asn1 (descriptor_of e) = Some raw ->
  FN_OID_GET_ATTR1 (FN_OID_TYPED_FROM_ASN1 LIST) ATTR1
                   (oid_of_bytes (c_str raw)) out1
  = Ok (0, ATTR1 e).
Proof.
  intros Hlast Hd Heqv Hi Hraw.
  destruct (descriptor_scan_known_row eqv LIST i e raw Hlast Hd Hi Hraw)
    as (j & e' & Hscan & _ & Hsame).
  unfold FN_OID_GET_ATTR1, FN_OID_TYPED_FROM_ASN1, oid_descriptor_from_buf,
    oid_of_bytes. cbn [p len].
  change (length (c_str raw)) with (strlen raw). rewrite Hscan.
  destruct Hsame as [[_ ->] | Hsame]; [reflexivity|].
  now rewrite (Heqv _ _ Hsame).
Qed.

Lemma FN_OID_GET_ATTR2_known_row {E A1 A2 : Type} `{OidEntry E}
    (LIST : list E) (ATTR1 : E -> A1) (ATTR2 : E -> A2)
    (i : nat) (e : E) (raw : list byte) (out1 : A1) (out2 : A2) :
  sentinel_last LIST = true -> raw_distinct LIST = true ->
  nth_error LIST i = Some e -> asn1 (descriptor_of e) = Some raw ->
  FN_OID_GET_ATTR2 (FN_OID_TYPED_FROM_ASN1 LIST) ATTR1 ATTR2
                   (oid_of_bytes (c_str raw)) out1 out2
  = Ok (0, (ATTR1 e, ATTR2 e)).
Proof.
  intros Hlast Hd Hi Hraw.
  destruct (descriptor_scan_known_row _ LIST i e raw Hlast Hd Hi Hraw)
    as (j & e' & Hscan & _ & Hsame).
  unfold FN_OID_GET_ATTR2, FN_OID_TYPED_FROM_ASN1, oid_descriptor_from_buf,
    oid_of_bytes. cbn [p len].
  change (length (c_str raw)) with (strlen raw). rewrite Hscan.
  destruct Hsame as [[_ ->] | Hsame]; [reflexivity | discriminate].
Qed.

(** The loop of the lookups by tag, on a table that ends with its
    sentinel. *)
Lemma oid_by_attr_scan_spec {E : Type} `{OidEntry E}
    (test : E -> bool) (rows : list E) (oid_str : option (list byte)) :
  sentinel_last rows = true ->
  reverse_lookup (fun e => test e = true) rows oid_str
                 (oid_by_attr_scan test rows oid_str).
Proof.
  unfold reverse_lookup.
  induction rows as [|cur rest IH]; cbn [sentinel_last oid_by_attr_scan];
    [discriminate|].
  intros Hlast. unfold is_sentinelb in Hlast.
  destruct (asn1 (descriptor_of cur)) as [raw|] eqn:Hraw.
  - destruct rest as [|r rest']; [discriminate|].
    cbn [negb andb] in Hlast.
    destruct (test cur) eqn:Htest.
    + left. exists 0%nat, cur, raw. cbn [nth_error].
      repeat (split; [first [reflexivity | assumption]|]).
      split; [|reflexivity]. intros j e' Hj. lia.
    + destruct (IH Hlast) as [(i & e & raw' & Hi & He & Pe & Hfirst & Hres)
                             | [Hres Hnone]].
      * left. exists (S i), e, raw'. cbn [nth_error].
        split; [exact Hi|]. split; [exact He|]. split; [exact Pe|].
        split; [|exact Hres]. intros [|j] e' Hj; cbn [nth_error].
        -- intros [= <-]. congruence.
        -- apply Hfirst. lia.
      * right. split; [exact Hres|]. intros e [<- | Hin] Hs.
        -- congruence.
        -- now apply Hnone.
  - right. split; [reflexivity|]. intros e [<- | Hin] Hs.
    + contradiction.
    + destruct rest as [|r rest']; [destruct Hin|].
      cbn [negb andb] in Hlast. discriminate.
Qed.

End MoreAccessors.

Lemma oid_by_attr_scan_stops_at_sentinel {oid_macros : oid_h}
    {E : Type} `{OidEntry E} (test : E -> bool) (pre post post' : list E)
    (s : E) (oid_str : option (list byte)) :
  is_sentinel s ->
  oid_by_attr_scan test (pre ++ s :: post) oid_str
  = oid_by_attr_scan test (pre ++ s :: post') oid_str.
Proof.
  intros Hs. induction pre as [|cur pre IH]; cbn [app oid_by_attr_scan].
  - unfold is_sentinel in Hs. now rewrite Hs.
  - destruct (asn1 (descriptor_of cur)); [|reflexivity].
    destruct (test cur); [reflexivity | exact IH].
Qed.

Lemma reverse_lookup_equiv {oid_macros : oid_h} {E : Type} `{OidEntry E}
    (P Q : E -> Prop) (LIST : list E) oid_str result :
  (forall e, P e <-> Q e) ->
  reverse_lookup P LIST oid_str result -> reverse_lookup Q LIST oid_str result.
Proof.
  intros HPQ [(i & e & raw & Hi & He & Pe & Hfirst & Hres) | [Hres Hnone]].
  - left. exists i, e, raw. split; [exact Hi|]. split; [exact He|].
    split; [now apply HPQ|]. split; [|exact Hres].
    intros j e' Hj Hn HQ. apply (Hfirst j e' Hj Hn). now apply HPQ.
  - right. split; [exact Hres|]. intros e Hin Hs HQ.
    apply (Hnone e Hin Hs). now apply HPQ.
Qed.

Lemma md_type_t_beq_eq (a b : md_type_t) : md_type_t_beq a b = true <-> a = b.
Proof.
  split; [apply internal_md_type_t_dec_bl | apply internal_md_type_t_dec_lb].
Qed.

Lemma pk_type_t_beq_eq (a b : pk_type_t) : pk_type_t_beq a b = true <-> a = b.
Proof.
  split; [apply internal_pk_type_t_dec_bl | apply internal_pk_type_t_dec_lb].
Qed.

(** *** Rows after the sentinel *)

(** X1: neither the generic matcher nor the loop of the lookups by tag
    looks at a row that follows the first sentinel: replacing what follows
    it changes no result. *)
Theorem scans_stop_at_first_sentinel
    (oid_macros : oid_h) (E : Type) (entry : OidEntry E)
    (pre post post' : list E) (s : E) :
  is_sentinel s ->
  (forall oid len,
      oid_descriptor_from_buf (Some (pre ++ s :: post)) oid len
      = oid_descriptor_from_buf (Some (pre ++ s :: post')) oid len)
  /\ (forall test oid_str,
         oid_by_attr_scan test (pre ++ s :: post) oid_str
         = oid_by_attr_scan test (pre ++ s :: post') oid_str).
Proof.
  intros Hs. split.
  - intros [oid|] len; [|reflexivity]. cbn [oid_descriptor_from_buf].
    now apply descriptor_scan_stops_at_sentinel.
  - intros test oid_str. now apply oid_by_attr_scan_stops_at_sentinel.
Qed.

Lemma scans_stop_at_first_sentinel_witness :
  (forall oid len,
      oid_descriptor_from_buf
        (Some ([desc [x55; x04; x03] "a" "b"] ++ null_descriptor :: []))
        oid len
      = oid_descriptor_from_buf
          (Some ([desc [x55; x04; x03] "a" "b"]
                 ++ null_descriptor :: [desc [x55; x04; x06] "c" "d"]))
          oid len)
  /\ (forall test oid_str,
         @oid_by_attr_scan standard_oid_h _ _ test
           ([desc [x55; x04; x03] "a" "b"] ++ null_descriptor :: []) oid_str
         = @oid_by_attr_scan standard_oid_h _ _ test
             ([desc [x55; x04; x03] "a" "b"]
              ++ null_descriptor :: [desc [x55; x04; x06] "c" "d"]) oid_str).
Proof.
  apply (scans_stop_at_first_sentinel standard_oid_h oid_descriptor_t _
           [desc [x55; x04; x03] "a" "b"] [] [desc [x55; x04; x06] "c" "d"]
           null_descriptor).
  reflexivity.
Defined.

(** *** One-attribute forward lookups *)

(** X2: each one-attribute forward lookup either succeeds with the
    attribute of the first row whose raw OID equals the input, or returns
    POLARSSL_ERR_OID_NOT_FOUND, no row matching, and leaves its output
    location as it was; it reads outside an object only when the input
    buffer is shorter than its [len]. *)
Theorem single_attribute_lookup_all_or_nothing
    (oid_macros : oid_h) (x509_macros : x509_h) (oid : asn1_buf) :
  (forall out, single_lookup oid_x520_attr_type short_name oid out
                 (oid_get_attr_short_name oid out))
  /\ (forall out, single_lookup oid_x509_ext ext_type oid out
                    (oid_get_x509_ext_type oid out))
  /\ (forall out, single_lookup oid_ext_key_usage description oid out
                    (oid_get_extended_key_usage oid out))
  /\ (forall out, single_lookup oid_sig_alg
                    (fun e => description (sig_alg_descriptor e)) oid out
                    (oid_get_sig_alg_desc oid out))
  /\ (forall out, single_lookup oid_pk_alg pk_alg oid out
                    (oid_get_pk_alg oid out))
  /\ (forall out, single_lookup oid_cipher_alg cipher_alg oid out
                    (oid_get_cipher_alg oid out))
  /\ (forall out, single_lookup oid_md_alg md_alg oid out
                    (oid_get_md_alg oid out)).
Proof.
  repeat match goal with |- _ /\ _ => split end;
    intros out; apply FN_OID_GET_ATTR1_single; reflexivity.
Qed.

(** *** Known rows *)

(** X3: when the raw OIDs of each table are pairwise different strings,
    the forward lookup of the raw OID of any row of a table returns 0 and
    the attribute or attributes of that row. *)
Theorem forward_lookup_of_known_rows
    (oid_macros : oid_h) (x509_macros : x509_h) (i : nat) (raw : list byte) :
  registry_raw_distinct = true ->
  let oid := oid_of_bytes (c_str raw) in
  (forall e out, nth_error oid_x520_attr_type i = Some e ->
      asn1 (descriptor_of e) = Some raw ->
      oid_get_attr_short_name oid out = Ok (0, short_name e))
  /\ (forall e out, nth_error oid_x509_ext i = Some e ->
         asn1 (descriptor_of e) = Some raw ->
         oid_get_x509_ext_type oid out = Ok (0, ext_type e))
  /\ (forall e out, nth_error oid_ext_key_usage i = Some e ->
         asn1 (descriptor_of e) = Some raw ->
         oid_get_extended_key_usage oid out = Ok (0, description e))
  /\ (forall e out, nth_error oid_sig_alg i = Some e ->
         asn1 (descriptor_of e) = Some raw ->
         oid_get_sig_alg_desc oid out
         = Ok (0, description (sig_alg_descriptor e)))
  /\ (forall e out1 out2, nth_error oid_sig_alg i = Some e ->
         asn1 (descriptor_of e) = Some raw ->
         oid_get_sig_alg oid out1 out2 = Ok (0, (sig_md_alg e, sig_pk_alg e)))
  /\ (forall e out, nth_error oid_pk_alg i = Some e ->
         asn1 (descriptor_of e) = Some raw ->
         oid_get_pk_alg oid out = Ok (0, pk_alg e))
  /\ (forall e out, nth_error oid_cipher_alg i = Some e ->
         asn1 (descriptor_of e) = Some raw ->
         oid_get_cipher_alg oid out = Ok (0, cipher_alg e))
  /\ (forall e out, nth_error oid_md_alg i = Some e ->
         asn1 (descriptor_of e) = Some raw ->
         oid_get_md_alg oid out = Ok (0, md_alg e))
  /\ (forall e out1 out2, nth_error oid_pkcs12_pbe_alg i = Some e ->
         asn1 (descriptor_of e) = Some raw ->
         oid_get_pkcs12_pbe_alg oid out1 out2
         = Ok (0, (pbe_md_alg e, pbe_cipher_alg e))).
Proof.
  intros Hd oid. unfold registry_raw_distinct in Hd.
  repeat rewrite andb_true_iff in Hd.
  destruct Hd as [[[[[[[H1 H2] H3] H4] H5] H6] H7] H8].
  repeat match goal with |- _ /\ _ => split end.
  - intros e out Hi Hraw.
    apply (FN_OID_GET_ATTR1_known_row (fun _ _ => false) _ _ i);
      [reflexivity | exact H1 | discriminate | exact Hi | exact Hraw].
  - intros e out Hi Hraw.
    apply (FN_OID_GET_ATTR1_known_row (fun _ _ => false) _ _ i);
      [reflexivity | exact H2 | discriminate | exact Hi | exact Hraw].
  - intros e out Hi Hraw.
    apply (FN_OID_GET_ATTR1_known_row (fun _ _ => false) _ _ i);
      [reflexivity | exact H3 | discriminate | exact Hi | exact Hraw].
  - intros e out Hi Hraw.
    apply (FN_OID_GET_ATTR1_known_row (fun _ _ => false) oid_sig_alg
             (fun e => description (sig_alg_descriptor e)) i);
      [reflexivity | exact H4 | discriminate | exact Hi | exact Hraw].
  - intros e out1 out2 Hi Hraw.
    apply (FN_OID_GET_ATTR2_known_row _ _ _ i);
      [reflexivity | exact H4 | exact Hi | exact Hraw].
  - intros e out Hi Hraw.
    apply (FN_OID_GET_ATTR1_known_row (fun _ _ => false) _ _ i);
      [reflexivity | exact H5 | discriminate | exact Hi | exact Hraw].
  - intros e out Hi Hraw.
    apply (FN_OID_GET_ATTR1_known_row (fun _ _ => false) _ _ i);
      [reflexivity | exact H6 | discriminate | exact Hi | exact Hraw].
  - intros e out Hi Hraw.
    apply (FN_OID_GET_ATTR1_known_row
             (fun a b => md_type_t_beq (md_alg a) (md_alg b)) _ _ i);
      [reflexivity | exact H7 | | exact Hi | exact Hraw].
    intros a b. apply md_type_t_beq_eq.
  - intros e out1 out2 Hi Hraw.
    apply (FN_OID_GET_ATTR2_known_row _ _ _ i);
      [reflexivity | exact H8 | exact Hi | exact Hraw].
Qed.

Lemma forward_lookup_of_known_rows_witness :
  @registry_raw_distinct standard_oid_h standard_x509_h = true
  /\ forall e out1 out2,
       nth_error (@oid_sig_alg standard_oid_h) 8 = Some e ->
       asn1 (descriptor_of e) = Some [x2b; x0e; x03; x02; x1d] ->
       @oid_get_sig_alg standard_oid_h
         (oid_of_bytes (c_str [x2b; x0e; x03; x02; x1d])) out1 out2
       = Ok (0, (sig_md_alg e, sig_pk_alg e)).
Proof.
  split; [reflexivity|].
  refine (proj1 (proj2 (proj2 (proj2 (proj2
            (forward_lookup_of_known_rows standard_oid_h standard_x509_h
               8 [x2b; x0e; x03; x02; x1d] _)))))).
  reflexivity.
Defined.

(** *** Lookups of an OID by tag *)

(** X4: [oid_get_oid_by_md] returns 0 and the raw OID of the first row of
    the digest table with the given digest tag, or
    POLARSSL_ERR_OID_NOT_FOUND, leaving [*oid_str] alone, when no row has
    that tag; [oid_get_oid_by_sig_alg] does the same for the first row of
    the signature table with both the given public-key tag and the given
    digest tag.  Neither walks off its table. *)
Theorem reverse_lookup_first_row_with_tag
    (oid_macros : oid_h) (oid_str : option (list byte)) :
  (forall md,
      reverse_lookup (fun e => md_alg e = md) oid_md_alg oid_str
                     (oid_get_oid_by_md md oid_str))
  /\ (forall pk md,
         reverse_lookup (fun e => sig_pk_alg e = pk /\ sig_md_alg e = md)
                        oid_sig_alg oid_str
                        (oid_get_oid_by_sig_alg pk md oid_str)).
Proof.
  split.
  - intros md.
    apply (reverse_lookup_equiv
             (fun e => md_type_t_beq (md_alg e) md = true)).
    + intros e. apply md_type_t_beq_eq.
    + apply oid_by_attr_scan_spec. reflexivity.
  - intros pk md.
    apply (reverse_lookup_equiv
             (fun e => pk_type_t_beq (sig_pk_alg e) pk
                       && md_type_t_beq (sig_md_alg e) md = true)).
    + intros e. rewrite andb_true_iff, pk_type_t_beq_eq, md_type_t_beq_eq.
      reflexivity.
    + apply oid_by_attr_scan_spec. reflexivity.
Qed.

(** *** Round trips between the two directions *)

(** Case analysis on the position of a row in a table given by its rows. *)
Ltac table_rows i Hi :=
  repeat (destruct i as [|i];
          [cbn [nth_error] in Hi; injection Hi as <- |
           cbn [nth_error] in Hi]);
  try (destruct i; discriminate Hi).

(** X5: when the error code is not 0 and [oid_get_md_alg] succeeds with
    digest tag [md] on an input, [oid_get_oid_by_md] of [md] succeeds and
    returns a raw OID equal to that input: same length, same bytes. *)
Theorem oid_get_md_alg_then_oid_by_md
    (oid_macros : oid_h) (oid : asn1_buf) (out md : md_type_t)
    (oid_str : option (list byte)) :
  POLARSSL_ERR_OID_NOT_FOUND <> 0 ->
  oid_get_md_alg oid out = Ok (0, md) ->
  exists bytes raw,
    p oid = Some bytes
    /\ oid_get_oid_by_md md oid_str = Ok (0, Some raw)
    /\ strlen raw = len oid /\ c_str raw = firstn (len oid) bytes.
Proof.
  intros Herr Hrun.
  assert (Hlast : sentinel_last oid_md_alg = true) by reflexivity.
  unfold oid_get_md_alg, oid_md_alg_from_asn1 in Hrun.
  destruct (FN_OID_GET_ATTR1_single oid_md_alg md_alg oid out Hlast)
    as [(i & e & bytes & Hp & Hi & (raw & Hraw & Hlen & Hbytes) & _ & Hres)
       | [[Hres _] | [Hres _]]];
    rewrite Hres in Hrun;
    [|injection Hrun as Hz _; contradiction | discriminate].
  injection Hrun as <-. exists bytes, raw. split; [exact Hp|].
  split; [|split; [exact Hlen | exact Hbytes]].
  unfold oid_md_alg in Hi. table_rows i Hi;
    cbn in Hraw; try discriminate Hraw; injection Hraw as <-; reflexivity.
Qed.

Lemma oid_get_md_alg_then_oid_by_md_witness :
  exists bytes raw,
    p (oid_of_bytes [x2b; x0e; x03; x02; x1a]) = Some bytes
    /\ @oid_get_oid_by_md standard_oid_h POLARSSL_MD_SHA1 None
       = Ok (0, Some raw)
    /\ strlen raw = len (oid_of_bytes [x2b; x0e; x03; x02; x1a])
    /\ c_str raw
       = firstn (len (oid_of_bytes [x2b; x0e; x03; x02; x1a])) bytes.
Proof.
  apply (oid_get_md_alg_then_oid_by_md standard_oid_h
           (oid_of_bytes [x2b; x0e; x03; x02; x1a])
           POLARSSL_MD_NONE POLARSSL_MD_SHA1 None).
  - simpl. lia.
  - vm_compute. reflexivity.
Defined.

(** X6: when the error code is not 0 and [oid_get_sig_alg] succeeds with
    tags [(md, pk)] on an input, [oid_get_oid_by_sig_alg] of [(pk, md)]
    succeeds; the raw OID it returns equals that input, unless the input
    is the obsolete OID_RSA_SHA_OBS, for which it returns
    OID_PKCS1_SHA1. *)
Theorem oid_get_sig_alg_then_oid_by_sig_alg
    (oid_macros : oid_h) (oid : asn1_buf) (md0 md : md_type_t)
    (pk0 pk : pk_type_t) (oid_str : option (list byte)) :
  POLARSSL_ERR_OID_NOT_FOUND <> 0 ->
  oid_get_sig_alg oid md0 pk0 = Ok (0, (md, pk)) ->
  exists bytes raw,
    p oid = Some bytes
    /\ oid_get_oid_by_sig_alg pk md oid_str = Ok (0, Some raw)
    /\ ((strlen raw = len oid /\ c_str raw = firstn (len oid) bytes)
        \/ (raw = OID_PKCS1_SHA1
            /\ strlen OID_RSA_SHA_OBS = len oid
            /\ c_str OID_RSA_SHA_OBS = firstn (len oid) bytes)).
Proof.
  intros Herr Hrun.
  assert (Hlast : sentinel_last oid_sig_alg = true) by reflexivity.
  unfold oid_get_sig_alg, oid_sig_alg_from_asn1 in Hrun.
  destruct (FN_OID_GET_ATTR2_atomic oid_sig_alg sig_md_alg sig_pk_alg
              oid md0 pk0 Hlast)
    as [(i & e & bytes & Hp & Hi & (raw & Hraw & Hlen & Hbytes) & Hres)
       | [[Hres _] | [Hres _]]];
    rewrite Hres in Hrun;
    [|injection Hrun as Hz _; contradiction | discriminate].
  injection Hrun as <- <-. exists bytes.
  unfold oid_sig_alg in Hi. table_rows i Hi;
    cbn in Hraw; try discriminate Hraw; injection Hraw as <-;
    eexists; (split; [exact Hp|]); (split; [reflexivity|]);
    first [left; split; [exact Hlen | exact Hbytes]
          | right; split; [reflexivity|]; split; [exact Hlen | exact Hbytes]].
Qed.

Lemma oid_get_sig_alg_then_oid_by_sig_alg_witness :
  exists bytes raw,
    p (oid_of_bytes [x2b; x0e; x03; x02; x1d]) = Some bytes
    /\ @oid_get_oid_by_sig_alg standard_oid_h POLARSSL_PK_RSA
         POLARSSL_MD_SHA1 None = Ok (0, Some raw)
    /\ ((strlen raw = len (oid_of_bytes [x2b; x0e; x03; x02; x1d])
         /\ c_str raw
            = firstn (len (oid_of_bytes [x2b; x0e; x03; x02; x1d])) bytes)
        \/ (raw = @OID_PKCS1_SHA1 standard_oid_h
            /\ strlen (@OID_RSA_SHA_OBS standard_oid_h)
               = len (oid_of_bytes [x2b; x0e; x03; x02; x1d])
            /\ c_str (@OID_RSA_SHA_OBS standard_oid_h)
               = firstn (len (oid_of_bytes [x2b; x0e; x03; x02; x1d]))
                        bytes)).
Proof.
  apply (oid_get_sig_alg_then_oid_by_sig_alg standard_oid_h
           (oid_of_bytes [x2b; x0e; x03; x02; x1d])
           POLARSSL_MD_NONE POLARSSL_MD_SHA1 POLARSSL_PK_NONE POLARSSL_PK_RSA
           None).
  - simpl. lia.
  - vm_compute. reflexivity.
Defined.

(** X7: when the raw OIDs of each table are pairwise different strings and
    a lookup by tag, started with [*oid_str] NULL, hands out a raw OID,
    the forward lookup of that OID returns 0 and the tag or tags asked
    for. *)
Theorem oid_by_tag_then_forward_lookup
    (oid_macros : oid_h) (x509_macros : x509_h)
    (md : md_type_t) (pk : pk_type_t) (ret : Z) (raw : list byte) :
  registry_raw_distinct = true ->
  (oid_get_oid_by_md md None = Ok (ret, Some raw) ->
   forall out, oid_get_md_alg (oid_of_bytes (c_str raw)) out = Ok (0, md))
  /\ (oid_get_oid_by_sig_alg pk md None = Ok (ret, Some raw) ->
      forall out1 out2,
        oid_get_sig_alg (oid_of_bytes (c_str raw)) out1 out2
        = Ok (0, (md, pk))).
Proof.
  intros Hd. unfold registry_raw_distinct in Hd.
  repeat rewrite andb_true_iff in Hd.
  destruct Hd as [[[[[[[_ _] _] H4] _] _] H7] _].
  split.
  - intros Hrun out.
    assert (Hlast : sentinel_last oid_md_alg = true) by reflexivity.
    destruct (oid_by_attr_scan_spec
                (fun cur => md_type_t_beq (md_alg cur) md) oid_md_alg None
                Hlast)
      as [(i & e & raw' & Hi & He & Htest & _ & Hres) | [Hres _]];
      fold (oid_get_oid_by_md md None) in Hres;
      unfold oid_get_oid_by_md, FN_OID_GET_OID_BY_ATTR1 in Hrun;
      rewrite Hres in Hrun; [|discriminate].
    injection Hrun as _ <-. apply md_type_t_beq_eq in Htest. subst md.
    apply (FN_OID_GET_ATTR1_known_row
             (fun a b => md_type_t_beq (md_alg a) (md_alg b)) _ _ i);
      [exact Hlast | exact H7 | | exact Hi | exact He].
    intros a b. apply md_type_t_beq_eq.
  - intros Hrun out1 out2.
    assert (Hlast : sentinel_last oid_sig_alg = true) by reflexivity.
    destruct (oid_by_attr_scan_spec
                (fun cur => pk_type_t_beq (sig_pk_alg cur) pk
                            && md_type_t_beq (sig_md_alg cur) md)
                oid_sig_alg None Hlast)
      as [(i & e & raw' & Hi & He & Htest & _ & Hres) | [Hres _]];
      unfold oid_get_oid_by_sig_alg, FN_OID_GET_OID_BY_ATTR2 in Hrun;
      rewrite Hres in Hrun; [|discriminate].
    injection Hrun as _ <-. apply andb_true_iff in Htest as [Hpk Hmd].
    apply pk_type_t_beq_eq in Hpk. apply md_type_t_beq_eq in Hmd. subst pk md.
    apply (FN_OID_GET_ATTR2_known_row _ _ _ i);
      [exact Hlast | exact H4 | exact Hi | exact He].
Qed.

Lemma oid_by_tag_then_forward_lookup_witness :
  @registry_raw_distinct standard_oid_h standard_x509_h = true
  /\ (@oid_get_oid_by_md standard_oid_h POLARSSL_MD_SHA256 None
      = Ok (0, Some [x60; x86; x48; x01; x65; x03; x04; x02; x01]) ->
      forall out,
        @oid_get_md_alg standard_oid_h
          (oid_of_bytes (c_str [x60; x86; x48; x01; x65; x03; x04; x02; x01]))
          out
        = Ok (0, POLARSSL_MD_SHA256)).
Proof.
  split; [reflexivity|].
  refine (proj1 (oid_by_tag_then_forward_lookup standard_oid_h standard_x509_h
                   POLARSSL_MD_SHA256 POLARSSL_PK_RSA 0
                   [x60; x86; x48; x01; x65; x03; x04; x02; x01] _)).
  reflexivity.
Defined.

(** ** Further properties of the codec *)

(** X8: in a buffer of at least one byte and for a non-empty OID, whether
    the call succeeds or fails, every store lands inside the buffer and the
    buffer is left holding a terminated string: some offset below [size]
    holds the terminator and nothing is stored beyond it. *)
Theorem oid_get_numeric_string_leaves_terminated_string (w : nat) (size : Z)
    (b0 : byte) (rest : list byte) :
  1 <= size ->
  exists r mem k,
    oid_get_numeric_string w size (oid_of_bytes (b0 :: rest)) = Returned r mem
    /\ Forall (in_bounds size) mem
    /\ 0 <= k < size /\ load mem k = Some NUL
    /\ forall off, k < off -> load mem off = None.
Proof.
  intros Hsize.
  destruct (oid_get_numeric_string_spec w size b0 rest Hsize)
    as (mem & Hrun & Hmem).
  set (text := if (w <? length (b0 :: rest))%nat then first_piece b0
               else spec_to_numeric_string (b0 :: rest)) in *.
  assert (Htext : text <> []).
  { unfold text. destruct (w <? length (b0 :: rest))%nat;
      [apply first_piece_nonempty | apply numeric_string_nonempty]. }
  eexists; exists mem.
  exists (Z.of_nat (length (firstn (Z.to_nat (size - 1)) text))).
  pose proof (length_firstn (Z.to_nat (size - 1)) text) as Hlen.
  split; [exact Hrun|]. split; [|split; [lia|split]].
  - apply Forall_forall. intros [o c] Hin. unfold in_bounds. cbn [fst].
    pose proof (load_of_store mem o c Hin) as Hload. rewrite Hmem in Hload.
    apply image_inside in Hload.
    pose proof (stored_text_length size text Hsize). lia.
  - rewrite Hmem, stored_text_cons, image_app by exact Htext.
    destruct (Z.ltb_spec
                (Z.of_nat (length (firstn (Z.to_nat (size - 1)) text)))
                (Z.of_nat (length (firstn (Z.to_nat (size - 1)) text))));
      [lia|].
    now rewrite Z.sub_diag.
  - intros off Hoff. rewrite Hmem, stored_text_cons by exact Htext.
    apply image_outside. right. rewrite length_app. simpl length. lia.
Qed.

Lemma oid_get_numeric_string_leaves_terminated_string_witness :
  exists r mem k,
    oid_get_numeric_string 4 5 (oid_of_bytes (x55 :: [x04; x03]))
    = Returned r mem
    /\ Forall (in_bounds 5) mem
    /\ 0 <= k < 5 /\ load mem k = Some NUL
    /\ forall off, k < off -> load mem off = None.
Proof.
  apply (oid_get_numeric_string_leaves_terminated_string 4 5 x55 [x04; x03]).
  lia.
Defined.

(** X9: when the OID fits the accumulator and its rendering has more
    characters than the buffer has bytes, the call returns
    POLARSSL_ERR_DEBUG_BUF_TOO_SMALL and the buffer holds the first
    [size - 1] characters of the rendering followed by the terminator,
    nothing else being stored. *)
Theorem oid_get_numeric_string_truncates (w : nat) (size : Z)
    (bs : list byte) :
  1 <= size -> (length bs <= w)%nat ->
  size < Z.of_nat (length (spec_to_numeric_string bs)) ->
  exists mem,
    oid_get_numeric_string w size (oid_of_bytes bs)
    = Returned POLARSSL_ERR_DEBUG_BUF_TOO_SMALL mem
    /\ forall off,
         load mem off
         = image (firstn (Z.to_nat (size - 1)) (spec_to_numeric_string bs)
                  ++ [NUL]) off.
Proof.
  intros Hsize Hw Hlong. destruct bs as [|b0 rest]; [simpl in Hlong; lia|].
  destruct (oid_get_numeric_string_spec w size b0 rest Hsize)
    as (mem & Hrun & Hmem).
  destruct (Nat.ltb_spec w (length (b0 :: rest))); [lia|].
  destruct (Z.leb_spec (Z.of_nat (length (spec_to_numeric_string (b0 :: rest))))
                       size); [lia|].
  exists mem. split; [exact Hrun|]. intros off. rewrite Hmem.
  now rewrite stored_text_cons by apply numeric_string_nonempty.
Qed.

Lemma oid_get_numeric_string_truncates_witness :
  exists mem,
    oid_get_numeric_string 4 5 (oid_of_bytes id_at_commonName)
    = Returned POLARSSL_ERR_DEBUG_BUF_TOO_SMALL mem
    /\ forall off,
         load mem off
         = image (firstn (Z.to_nat (5 - 1))
                    (spec_to_numeric_string id_at_commonName) ++ [NUL]) off.
Proof.
  apply (oid_get_numeric_string_truncates 4 5 id_at_commonName).
  - lia.
  - simpl. lia.
  - vm_compute. reflexivity.
Defined.

(** X10: when the rendering has exactly as many characters as the buffer
    has bytes, the call succeeds and returns that number, although the
    buffer holds only the first [size - 1] characters and the terminator:
    the last character is lost without an error. *)
Theorem oid_get_numeric_string_exact_fit (w : nat) (size : Z)
    (bs : list byte) :
  1 <= size -> (length bs <= w)%nat ->
  Z.of_nat (length (spec_to_numeric_string bs)) = size ->
  exists mem,
    oid_get_numeric_string w size (oid_of_bytes bs) = Returned size mem
    /\ forall off,
         load mem off
         = image (firstn (Z.to_nat (size - 1)) (spec_to_numeric_string bs)
                  ++ [NUL]) off.
Proof.
  intros Hsize Hw Hfit. destruct bs as [|b0 rest]; [simpl in Hfit; lia|].
  destruct (oid_get_numeric_string_spec w size b0 rest Hsize)
    as (mem & Hrun & Hmem).
  destruct (Nat.ltb_spec w (length (b0 :: rest))); [lia|].
  destruct (Z.leb_spec (Z.of_nat (length (spec_to_numeric_string (b0 :: rest))))
                       size); [|lia].
  exists mem. rewrite Hfit in Hrun. split; [exact Hrun|].
  intros off. rewrite Hmem.
  now rewrite stored_text_cons by apply numeric_string_nonempty.
Qed.

Lemma oid_get_numeric_string_exact_fit_witness :
  exists mem,
    oid_get_numeric_string 4 7 (oid_of_bytes id_at_commonName)
    = Returned 7 mem
    /\ forall off,
         load mem off
         = image (firstn (Z.to_nat (7 - 1))
                    (spec_to_numeric_string id_at_commonName) ++ [NUL]) off.
Proof.
  apply (oid_get_numeric_string_exact_fit 4 7 id_at_commonName).
  - lia.
  - simpl. lia.
  - vm_compute. reflexivity.
Defined.

(** X11: with a buffer of size 0 and any non-empty OID, whatever the width
    of [unsigned int], the call returns POLARSSL_ERR_DEBUG_BUF_TOO_SMALL
    and its one store is the terminator at offset -1, before the
    buffer. *)
Theorem oid_get_numeric_string_size_zero (w : nat) (b0 : byte)
    (rest : list byte) :
  oid_get_numeric_string w 0 (oid_of_bytes (b0 :: rest))
  = Returned POLARSSL_ERR_DEBUG_BUF_TOO_SMALL [(-1, NUL)].
Proof.
  rewrite oid_get_numeric_string_run.
  pose proof (first_piece_length b0) as Hlen.
  unfold emit, snprintf, SAFE_SNPRINTF. cbn [cur_p cur_n cur_mem].
  destruct (Z.eqb_spec (Z.of_nat (length (first_piece b0))) (-1)); [lia|].
  rewrite Z.gtb_ltb.
  destruct (Z.ltb_spec 0 (Z.of_nat (length (first_piece b0)))); [|lia].
  reflexivity.
Qed.

(** X12: on a well-formed OID buffer the call always returns, and its
    value is POLARSSL_ERR_DEBUG_BUF_TOO_SMALL or a count between 0 and
    [size]: the [return( -1 )] of SAFE_SNPRINTF is never taken. *)
Theorem oid_get_numeric_string_return_values (w : nat) (size : Z)
    (bs : list byte) :
  0 <= size ->
  exists r mem,
    oid_get_numeric_string w size (oid_of_bytes bs) = Returned r mem
    /\ (r = POLARSSL_ERR_DEBUG_BUF_TOO_SMALL \/ 0 <= r <= size).
Proof.
  intros Hsize. destruct bs as [|b0 rest].
  - exists 0, []. split; [apply oid_get_numeric_string_nil | right; lia].
  - destruct (Z.lt_ge_cases size 1) as [Hsmall | Hbig].
    + exists POLARSSL_ERR_DEBUG_BUF_TOO_SMALL, [(size - 1, NUL)].
      split; [apply oid_get_numeric_string_no_room; lia | now left].
    + destruct (oid_get_numeric_string_spec w size b0 rest Hbig)
        as (mem & Hrun & _).
      eexists; exists mem. split; [exact Hrun|].
      destruct (w <? length (b0 :: rest))%nat; [now left|].
      destruct (Z.leb_spec
                  (Z.of_nat (length (spec_to_numeric_string (b0 :: rest))))
                  size); [right; lia | now left].
Qed.

Lemma oid_get_numeric_string_return_values_witness :
  exists r mem,
    oid_get_numeric_string 4 16 (oid_of_bytes id_at_commonName)
    = Returned r mem
    /\ (r = POLARSSL_ERR_DEBUG_BUF_TOO_SMALL \/ 0 <= r <= 16).
Proof.
  apply (oid_get_numeric_string_return_values 4 16 id_at_commonName). lia.
Defined.

(** X13: a call that succeeds keeps succeeding, with the same return
    value, in any larger buffer. *)
Theorem oid_get_numeric_string_larger_buffer (w : nat) (size size' : Z)
    (bs : list byte) (r : Z) (mem : list store) :
  oid_get_numeric_string w size (oid_of_bytes bs) = Returned r mem ->
  0 <= r -> size <= size' ->
  exists mem',
    oid_get_numeric_string w size' (oid_of_bytes bs) = Returned r mem'.
Proof.
  intros Hrun Hr Hle. destruct bs as [|b0 rest].
  - unfold oid_of_bytes in *. cbn [length] in *.
    rewrite oid_get_numeric_string_nil in *. injection Hrun as <- _.
    now exists [].
  - unfold POLARSSL_ERR_DEBUG_BUF_TOO_SMALL in *.
    destruct (Z.lt_ge_cases size 1) as [Hsmall | Hbig].
    + rewrite oid_get_numeric_string_no_room in Hrun by lia.
      injection Hrun as <- _. unfold POLARSSL_ERR_DEBUG_BUF_TOO_SMALL in Hr.
      lia.
    + destruct (oid_get_numeric_string_spec w size b0 rest Hbig)
        as (m1 & Hrun1 & _).
      destruct (oid_get_numeric_string_spec w size' b0 rest ltac:(lia))
        as (m2 & Hrun2 & _).
      rewrite Hrun1 in Hrun. exists m2. rewrite Hrun2.
      unfold POLARSSL_ERR_DEBUG_BUF_TOO_SMALL in *.
      destruct (w <? length (b0 :: rest))%nat;
        [injection Hrun as <- _; lia|].
      destruct (Z.leb_spec
                  (Z.of_nat (length (spec_to_numeric_string (b0 :: rest))))
                  size); [|injection Hrun as <- _; lia].
      destruct (Z.leb_spec
                  (Z.of_nat (length (spec_to_numeric_string (b0 :: rest))))
                  size'); [|lia].
      injection Hrun as <- _. reflexivity.
Qed.

Lemma oid_get_numeric_string_larger_buffer_witness :
  exists mem',
    oid_get_numeric_string 4 64 (oid_of_bytes id_at_commonName)
    = Returned 7 mem'.
Proof.
  apply (oid_get_numeric_string_larger_buffer 4 7 64 id_at_commonName 7
           (stores_of (oid_get_numeric_string 4 7
                         (oid_of_bytes id_at_commonName)))).
  - vm_compute. reflexivity.
  - lia.
  - lia.
Defined.

Lemma spec_arcs_continuation (tail : list byte) (v : Z) :
  Forall continuation tail -> spec_arcs tail v = [].
Proof.
  intros Htail. revert v. induction Htail as [|b tail Hb _ IH]; intros v;
    [reflexivity|].
  rewrite spec_arcs_cons. unfold continuation in Hb. rewrite Hb. apply IH.
Qed.

Lemma spec_arcs_app_continuation (bs tail : list byte) (v : Z) :
  Forall continuation tail -> spec_arcs (bs ++ tail) v = spec_arcs bs v.
Proof.
  intros Htail. revert v. induction bs as [|b bs IH]; intros v.
  - cbn [app]. now rewrite spec_arcs_continuation.
  - cbn [app]. rewrite !spec_arcs_cons.
    destruct (Z.testbit (byte_val b) 7); now rewrite IH.
Qed.

(** X14: bytes at the end of an OID that all have their high bit set (an
    arc that is never terminated) are dropped without an error: as long as
    the OID fits the accumulator, the call returns the same value and makes
    the same stores as without them. *)
Theorem oid_get_numeric_string_unterminated_arc (w : nat) (size : Z)
    (b0 : byte) (rest tail : list byte) :
  Forall continuation tail ->
  (length (b0 :: rest ++ tail) <= w)%nat ->
  oid_get_numeric_string w size (oid_of_bytes (b0 :: rest ++ tail))
  = oid_get_numeric_string w size (oid_of_bytes (b0 :: rest)).
Proof.
  intros Htail Hw. rewrite !oid_get_numeric_string_run.
  cbn [length] in Hw. rewrite length_app in *.
  destruct (emit _ (first_piece b0)) as [c1 | |]; try reflexivity.
  destruct (Nat.ltb_spec w (S (length rest + length tail))); [lia|].
  destruct (Nat.ltb_spec w (S (length rest))); [lia|].
  now rewrite spec_arcs_app_continuation.
Qed.

Lemma oid_get_numeric_string_unterminated_arc_witness :
  oid_get_numeric_string 4 16 (oid_of_bytes (x55 :: [x04] ++ [x86; x81]))
  = oid_get_numeric_string 4 16 (oid_of_bytes (x55 :: [x04])).
Proof.
  apply (oid_get_numeric_string_unterminated_arc 4 16 x55 [x04] [x86; x81]).
  - repeat constructor.
  - simpl. lia.
Defined.

(** *** The characters written *)

Lemma put_chars (P : ascii -> Prop) (o : Z) (cs : list ascii) :
  Forall P cs -> Forall (fun st : store => P (snd st)) (put o cs).
Proof.
  intros Hcs. revert o. induction Hcs as [|c cs Hc _ IH]; intros o;
    cbn [put]; constructor; [exact Hc | apply IH].
Qed.

Lemma emit_chars (P : ascii -> Prop) (c : cursor) (s : list ascii) :
  P NUL -> Forall P s ->
  Forall (fun st : store => P (snd st)) (cur_mem c) ->
  match emit c s with
  | Next c' => Forall (fun st : store => P (snd st)) (cur_mem c')
  | Return _ mem => Forall (fun st : store => P (snd st)) mem
  | Crash => True
  end.
Proof.
  intros Hnul Hs Hmem.
  assert (Hsn : Forall (fun st : store => P (snd st))
                       (cur_mem (snd (snprintf c s)))).
  { unfold snprintf. cbn [snd cur_mem]. apply Forall_app. split; [exact Hmem|].
    destruct (cur_n c <=? 0); [constructor|].
    apply Forall_app. split.
    - apply put_chars.
      rewrite <- (firstn_skipn (Z.to_nat (cur_n c - 1)) s) in Hs.
      now apply Forall_app in Hs.
    - constructor; [exact Hnul | constructor]. }
  unfold emit. rewrite (surjective_pairing (snprintf c s)).
  unfold SAFE_SNPRINTF.
  destruct (fst (snprintf c s) =? -1); [exact Hsn|].
  destruct (fst (snprintf c s) >? cur_n (snd (snprintf c s))).
  - apply Forall_app. split; [exact Hsn|].
    constructor; [exact Hnul | constructor].
  - exact Hsn.
Qed.

Lemma emit_all_chars (P : ascii -> Prop) (ps : list (list ascii))
    (c : cursor) :
  P NUL -> Forall (Forall P) ps ->
  Forall (fun st : store => P (snd st)) (cur_mem c) ->
  match emit_all ps c with
  | Next c' => Forall (fun st : store => P (snd st)) (cur_mem c')
  | Return _ mem => Forall (fun st : store => P (snd st)) mem
  | Crash => True
  end.
Proof.
  intros Hnul Hps. revert c. induction Hps as [|s ps Hs _ IH]; intros c Hmem.
  - exact Hmem.
  - cbn [emit_all]. pose proof (emit_chars P c s Hnul Hs Hmem) as Hstep.
    destruct (emit c s) as [c1 | r mem |]; cbn [bind];
      [now apply IH | exact Hstep | exact I].
Qed.

Lemma spec_arcs_nonneg (bs : list byte) (v : Z) :
  0 <= v -> Forall (fun a => 0 <= a) (spec_arcs bs v).
Proof.
  revert v. induction bs as [|b bs IH]; intros v Hv; [constructor|].
  rewrite spec_arcs_cons.
  assert (Hv' : 0 <= Z.lor (Z.shiftl v 7) (Z.land (byte_val b) 127)).
  { apply Z.lor_nonneg. split; [now apply Z.shiftl_nonneg|].
    apply Z.land_nonneg. right. lia. }
  destruct (Z.testbit (byte_val b) 7); [now apply IH|].
  constructor; [exact Hv' | apply IH; lia].
Qed.

Lemma fmt_d_rendering_chars (z : Z) :
  0 <= z -> Forall rendering_char (fmt_d z).
Proof.
  intros Hz. eapply Forall_impl; [|apply (fmt_d_digits z Hz)].
  intros c Hc. now left.
Qed.

Lemma first_piece_chars (b : byte) : Forall rendering_char (first_piece b).
Proof.
  pose proof (byte_val_range b) as Hb. unfold first_piece.
  apply Forall_app. split.
  - apply fmt_d_rendering_chars. apply Z.div_pos; lia.
  - constructor; [right; left; reflexivity|].
    apply fmt_d_rendering_chars. apply Z.mod_pos_bound. lia.
Qed.

Lemma arc_pieces_chars (arcs : list Z) :
  Forall (fun a => 0 <= a) arcs ->
  Forall (Forall rendering_char) (map arc_piece arcs).
Proof.
  intros Harcs. induction Harcs as [|a arcs Ha _ IH]; cbn [map];
    constructor; [|exact IH].
  unfold arc_piece. constructor; [right; left; reflexivity|].
  now apply fmt_d_rendering_chars.
Qed.

(** X15: every character the call stores is a decimal digit, a dot or the
    terminator; in particular no minus sign is ever printed, although the
    [unsigned int] accumulator is printed with "%d". *)
Theorem oid_get_numeric_string_characters (w : nat) (size : Z)
    (bs : list byte) (r : Z) (mem : list store) :
  oid_get_numeric_string w size (oid_of_bytes bs) = Returned r mem ->
  Forall (fun st : store => rendering_char (snd st)) mem.
Proof.
  intros Hrun. destruct bs as [|b0 rest].
  - unfold oid_of_bytes in Hrun. cbn [length] in Hrun.
    rewrite oid_get_numeric_string_nil in Hrun. injection Hrun as _ <-.
    constructor.
  - rewrite oid_get_numeric_string_run in Hrun.
    assert (Hnul : rendering_char NUL) by (right; right; reflexivity).
    pose proof (emit_chars rendering_char
                  {| cur_p := 0; cur_n := size; cur_mem := [] |}
                  (first_piece b0) Hnul (first_piece_chars b0)
                  (Forall_nil _)) as Hfirst.
    destruct (emit _ (first_piece b0)) as [c1 | r1 mem1 |];
      [|injection Hrun as _ <-; exact Hfirst | discriminate].
    destruct (w <? S (length rest))%nat;
      [injection Hrun as _ <-; exact Hfirst|].
    pose proof (emit_all_chars rendering_char
                  (map arc_piece (spec_arcs rest 0)) c1 Hnul
                  (arc_pieces_chars _ (spec_arcs_nonneg rest 0 (Z.le_refl 0)))
                  Hfirst) as Hall.
    destruct (emit_all _ c1) as [c2 | r2 mem2 |];
      [injection Hrun as _ <-; exact Hall
      |injection Hrun as _ <-; exact Hall | discriminate].
Qed.

Lemma oid_get_numeric_string_characters_witness :
  Forall (fun st : store => rendering_char (snd st))
         (stores_of (oid_get_numeric_string 4 16
                       (oid_of_bytes id_at_commonName))).
Proof.
  apply (oid_get_numeric_string_characters 4 16 id_at_commonName 7).
  vm_compute. reflexivity.
Defined.

(** *** The MSVC wrapper of snprintf *)

(** X16: under [compat_snprintf], a failure of [vsnprintf] (a negative
    result, which is what the MSVC functions give when the text does not
    fit) reaches SAFE_SNPRINTF as [n + 20]: the macro returns
    POLARSSL_ERR_DEBUG_BUF_TOO_SMALL after its terminating store, never
    -1, provided [n + 20] is within the range of [int]; a result that is
    not negative is passed on unchanged. *)
Theorem compat_snprintf_reports_too_small (w : nat) (res : Z) (c : cursor) :
  0 <= cur_n c -> cur_n c + 20 < 2 ^ (int_bits w - 1) ->
  (res < 0 ->
   SAFE_SNPRINTF (compat_snprintf w (cur_n c) res) c
   = Return POLARSSL_ERR_DEBUG_BUF_TOO_SMALL
            (cur_mem c ++ [(cur_p c + (cur_n c - 1), NUL)]))
  /\ (0 <= res -> compat_snprintf w (cur_n c) res = res).
Proof.
  intros Hn Hfit.
  assert (Hbits : 0 < int_bits w).
  { destruct (Z.lt_ge_cases 0 (int_bits w)) as [H | H]; [exact H|].
    exfalso. assert (int_bits w = 0) by (unfold int_bits in *; lia).
    rewrite H0 in Hfit. simpl in Hfit. lia. }
  unfold compat_snprintf. split.
  - intros Hres. destruct (Z.ltb_spec res 0); [|lia].
    rewrite (to_int_small w (cur_n c)) by lia.
    rewrite to_int_small by lia.
    unfold SAFE_SNPRINTF.
    destruct (Z.eqb_spec (cur_n c + 20) (-1)); [lia|].
    rewrite Z.gtb_ltb.
    destruct (Z.ltb_spec (cur_n c) (cur_n c + 20)); [reflexivity | lia].
  - intros Hres. destruct (Z.ltb_spec res 0); [lia | reflexivity].
Qed.

Lemma compat_snprintf_reports_too_small_witness :
  (-1 < 0 ->
   SAFE_SNPRINTF (compat_snprintf 4 8 (-1))
                 {| cur_p := 3; cur_n := 8; cur_mem := [] |}
   = Return POLARSSL_ERR_DEBUG_BUF_TOO_SMALL ([] ++ [(3 + (8 - 1), NUL)]))
  /\ (0 <= -1 -> compat_snprintf 4 8 (-1) = -1).
Proof.
  apply (compat_snprintf_reports_too_small 4 (-1)
           {| cur_p := 3; cur_n := 8; cur_mem := [] |}).
  - simpl. lia.
  - vm_compute. reflexivity.
Defined.
